(** * cargame.py: car kinematics, surface sampling and lap timing

    A shallow embedding of [practice codes/cargame.py] (a pygame racing
    demo) and the properties of its three pieces of logic: [Car.update],
    [Track] (geometry builder, [is_on_track], [check_finish_line_cross])
    and [Game.update].

    Numbers.  The program computes with Python floats.  The embedding is
    written once over an interface [PyFloat] of the float operations the
    program uses, and run at two instances:
    - [binary64]: IEEE 754 double precision (Rocq's primitive floats),
      the arithmetic CPython runs on;
    - [exact]: the rationals, i.e. the same program without rounding.
    Integers of the program (heading angle, colours, rectangle
    coordinates, lap counter) are unbounded Python ints, modelled in [Z]. *)

From Stdlib Require Import ZArith QArith Qabs Qminmax Bool List Lia Lqa Sorted.
From Stdlib Require Import PrimFloat SpecFloat FloatOps FloatAxioms.
From Stdlib Require Uint63.
Import ListNotations.

Set Implicit Arguments.

(** ** Python runtime *)

(** The exceptions the program can meet. *)
Inductive exn : Type :=
| IndexError
| ZeroDivisionError
| ValueError
| OverflowError
| AttributeError.

(** A computation either returns a value or raises. *)
Inductive result (A : Type) : Type :=
| Ok (a : A)
| Raise (e : exn).
Arguments Ok {A} a.
Arguments Raise {A} e.

Definition bind {A B : Type} (m : result A) (k : A -> result B) : result B :=
  match m with
  | Ok a => k a
  | Raise e => Raise e
  end.

Notation "x <- m ;; k" := (bind m (fun x => k))
  (at level 61, m at next level, right associativity).
Notation "' pat <- m ;; k" := (bind m (fun x => match x with pat => k end))
  (at level 61, pat pattern, m at next level, right associativity).

(** [try: m except IndexError: h] *)
Definition try_except_IndexError {A : Type} (m : result A) (h : result A)
  : result A :=
  match m with
  | Raise IndexError => h
  | _ => m
  end.

Definition is_ok {A : Type} (m : result A) : bool :=
  match m with Ok _ => true | Raise _ => false end.

(** The float operations of the program.  [fint] is [int(x)]: the integer
    part, rounded toward zero; it raises on nan and on the infinities. *)
Class PyFloat (F : Type) : Type := {
  fadd : F -> F -> F;
  fsub : F -> F -> F;
  fmul : F -> F -> F;
  fdiv : F -> F -> F;
  fneg : F -> F;
  fltb : F -> F -> bool;
  feqb : F -> F -> bool;
  of_Z : Z -> F;
  fint : F -> result Z
}.

Declare Scope py_scope.
Delimit Scope py_scope with py.
Infix "+" := fadd : py_scope.
Infix "-" := fsub : py_scope.
Infix "*" := fmul : py_scope.
Infix "/" := fdiv : py_scope.
Notation "- x" := (fneg x) : py_scope.
Infix "<?" := fltb : py_scope.
Infix "=?" := feqb : py_scope.

(** *** The exact instance *)

Definition Qltb (a b : Q) : bool := negb (Qle_bool b a).

Definition Qtrunc (q : Q) : result Z := Ok (Z.quot (Qnum q) (Zpos (Qden q))).

#[export] Instance exact : PyFloat Q := {
  fadd := Qplus;
  fsub := Qminus;
  fmul := Qmult;
  fdiv := Qdiv;
  fneg := Qopp;
  fltb := Qltb;
  feqb := Qeq_bool;
  of_Z := inject_Z;
  fint := Qtrunc
}.

(** *** The binary64 instance *)

Definition float_of_Z (z : Z) : float :=
  match z with
  | Z0 => PrimFloat.zero
  | Zpos _ => PrimFloat.of_uint63 (Uint63.of_Z z)
  | Zneg p => PrimFloat.opp (PrimFloat.of_uint63 (Uint63.of_Z (Zpos p)))
  end.

(** Integer part of a float, rounding toward zero as [int()] does. *)
Definition SFtrunc (f : spec_float) : result Z :=
  match f with
  | S754_zero _ => Ok 0%Z
  | S754_finite s m e =>
      let v := match e with
               | Z0 => Zpos m
               | Zpos _ => (Zpos m * 2 ^ e)%Z
               | Zneg p => Z.shiftr (Zpos m) (Zpos p)
               end in
      Ok (if s then (- v)%Z else v)
  | S754_infinity _ => Raise OverflowError
  | S754_nan => Raise ValueError
  end.

#[export] Instance binary64 : PyFloat float := {
  fadd := PrimFloat.add;
  fsub := PrimFloat.sub;
  fmul := PrimFloat.mul;
  fdiv := PrimFloat.div;
  fneg := PrimFloat.opp;
  fltb := PrimFloat.ltb;
  feqb := PrimFloat.eqb;
  of_Z := float_of_Z;
  fint := fun x => SFtrunc (Prim2SF x)
}.

(** The exact value of a binary64 number ([None] for nan and inf). *)
Definition SF2Q (f : spec_float) : option Q :=
  match f with
  | S754_zero _ => Some 0%Q
  | S754_finite s m e =>
      let v := (inject_Z (Zpos m) * (2 ^ e))%Q in
      Some (if s then Qopp v else v)
  | S754_infinity _ | S754_nan => None
  end.

Definition float_value (x : float) : option Q := SF2Q (Prim2SF x).

Section Python.
Context {F : Type} `{PyFloat F}.
Local Open Scope py_scope.

(** A decimal literal such as [0.15]: the float nearest to the quotient
    (IEEE division of two exactly represented integers is correctly
    rounded; in the exact instance it is the rational itself). *)
Definition lit (q : Q) : F := of_Z (Qnum q) / of_Z (Zpos (Qden q)).

(** Truth value of a float: zero is falsy. *)
Definition truthy (a : F) : bool := negb (a =? of_Z 0).

(** [a or b] on floats. *)
Definition py_or (a b : F) : F := if truthy a then a else b.

(** [min(a, b)] and [max(a, b)] of the builtins: the first argument is
    kept unless the second is strictly smaller (larger). *)
Definition py_min (a b : F) : F := if b <? a then b else a.
Definition py_max (a b : F) : F := if a <? b then b else a.

(** [a / b]: true division raises on a zero divisor. *)
Definition py_div (a b : F) : result F :=
  if b =? of_Z 0 then Raise ZeroDivisionError else Ok (a / b).

(** [int(x)] *)
Definition py_int (x : F) : result Z := fint x.
End Python.

(** ** Constants of the module *)

Definition WIDTH : Z := 800.
Definition HEIGHT : Z := 600.
Definition FPS : Z := 60.

Definition rgb : Type := (Z * Z * Z)%type.
Definition rgba : Type := (Z * Z * Z * Z)%type.

Definition WHITE : rgb := (255, 255, 255)%Z.
Definition GRAY : rgb := (100, 100, 100)%Z.
Definition DARKGRAY : rgb := (50, 50, 50)%Z.
Definition GREEN : rgb := (0, 200, 0)%Z.
Definition RED : rgb := (200, 0, 0)%Z.
Definition BLACK : rgb := (0, 0, 0)%Z.
Definition YELLOW : rgb := (255, 255, 0)%Z.
Definition BLUE : rgb := (70, 130, 180)%Z.

(** [c[i]] for [i] in [range(3)] *)
Definition chan (c : rgb) (i : nat) : Z :=
  match c, i with
  | (r, _, _), O => r
  | (_, g, _), S O => g
  | (_, _, b), _ => b
  end.

(** [c[:3]] of a pygame [Color] *)
Definition slice3 (c : rgba) : rgb :=
  match c with (r, g, b, _) => (r, g, b) end.

(** ** pygame: rectangles and surfaces *)

(** pygame reads the coordinates of a pixel into C ints: a Python int
    outside their range raises [OverflowError] in the conversion. *)
Definition INT_MIN : Z := - 2 ^ 31.
Definition INT_MAX : Z := 2 ^ 31 - 1.

Definition c_int (z : Z) : bool := ((INT_MIN <=? z) && (z <=? INT_MAX))%Z.

Module Rect.
Record t : Type := make { left : Z; top : Z; w : Z; h : Z }.

(** [Rect.colliderect], as pygame implements it: rectangles of zero
    size collide with nothing, and touching edges do not overlap. *)
Definition colliderect (A B : t) : bool :=
  if ((w A =? 0) || (h A =? 0) || (w B =? 0) || (h B =? 0))%Z then false
  else
    ((Z.min (left A) (left A + w A) <? Z.max (left B) (left B + w B))
     && (Z.min (top A) (top A + h A) <? Z.max (top B) (top B + h B))
     && (Z.min (left B) (left B + w B) <? Z.max (left A) (left A + w A))
     && (Z.min (top B) (top B + h B) <? Z.max (top A) (top A + h A)))%Z.

(** [pygame.Rect(x, y, w, h)] with float coordinates: they are
    converted to ints. *)
Definition of_floats {F : Type} `{PyFloat F} (x y : F) (w h : Z)
  : result t :=
  ix <- py_int x ;;
  iy <- py_int y ;;
  Ok (make ix iy w h).
End Rect.

(** What has been drawn on a surface, in drawing order.  How pygame
    turns polygons and lines into pixels is the library's business: a
    [Raster] gives the colour of a pixel after a list of drawings. *)
Inductive draw_op (F : Type) : Type :=
| Fill (c : rgb)
| Polygon (c : rgb) (pts : list (F * F))
| Line (c : rgb) (p q : F * F) (width : Z)
| DrawRect (c : rgb) (r : Rect.t).
Arguments Fill {F} c.
Arguments Polygon {F} c pts.
Arguments Line {F} c p q width.
Arguments DrawRect {F} c r.

Class Raster (F : Type) : Type :=
  pixel : list (draw_op F) -> Z -> Z -> rgba.

Module Surface.
Record t (F : Type) : Type :=
  make { width : Z; height : Z; ops : list (draw_op F) }.
Arguments make {F} width height ops.
Arguments width {F} t.
Arguments height {F} t.
Arguments ops {F} t.

Section Ops.
Context {F : Type} {R : Raster F}.

(** [pygame.Surface((w, h))]: a black surface. *)
Definition new (w h : Z) : t F := make w h [Fill BLACK].

Definition draw (s : t F) (op : draw_op F) : t F :=
  make (width s) (height s) (ops s ++ [op]).

(** [Surface.get_at((x, y))]: the two Python ints are first converted
    to C ints, which raises [OverflowError] on a coordinate outside
    their range; a position outside the surface then raises
    [IndexError]. *)
Definition get_at (s : t F) (x y : Z) : result rgba :=
  if negb (c_int x && c_int y) then Raise OverflowError
  else if ((0 <=? x) && (x <? width s) && (0 <=? y) && (y <? height s))%Z
  then Ok (pixel (ops s) x y)
  else Raise IndexError.
End Ops.
End Surface.

(** [pygame.draw.polygon(surface, color, points)], filled: fewer than
    three points raise [ValueError]. *)
Definition draw_polygon {F : Type} (surf : Surface.t F) (color : rgb)
  (points : list (F * F)) : result (Surface.t F) :=
  if (List.length points <? 3)%nat then Raise ValueError
  else Ok (Surface.draw surf (Polygon color points)).

(** A rasteriser that paints fills and axis-aligned rectangles and leaves
    polygons and lines out; enough to run the sampler on surfaces made of
    fills and rectangles. *)
Definition in_rect (r : Rect.t) (x y : Z) : bool :=
  ((Rect.left r <=? x) && (x <? Rect.left r + Rect.w r)
   && (Rect.top r <=? y) && (y <? Rect.top r + Rect.h r))%Z.

Fixpoint flat_pixel {F : Type} (l : list (draw_op F)) (acc : rgb) (x y : Z)
  : rgba :=
  match l with
  | [] => let '(r, g, b) := acc in (r, g, b, 255%Z)
  | Fill c :: l' => flat_pixel l' c x y
  | DrawRect c r :: l' => flat_pixel l' (if in_rect r x y then c else acc) x y
  | _ :: l' => flat_pixel l' acc x y
  end.

Definition flat_raster (F : Type) : Raster F :=
  fun l x y => flat_pixel l BLACK x y.
Arguments flat_raster F : clear implicits.

(** ** The math module *)

(** [math.radians], [math.sin], [math.cos].  The heading is a Python
    int, and [math.radians] converts it to a float first: that raises
    [OverflowError] on an int beyond the largest double, and [radians]
    stands for the function on the ints that do fit, [fits_double]. *)
Definition DBL_MAX : Z := 2 ^ 1024 - 2 ^ 971.

Definition fits_double (a : Z) : bool := (Z.abs a <=? DBL_MAX)%Z.

Class Trig (F : Type) : Type := {
  radians : Z -> F;
  sin : F -> F;
  cos : F -> F
}.

(** Truncated Taylor series, to run the model where the libm is not at
    hand; no theorem depends on the values. *)
Definition taylor_trig (F : Type) `{PyFloat F} : Trig F :=
  let mul := fmul in
  {| radians := fun a => fdiv (fmul (of_Z a) (lit 3.141592653589793)) (of_Z 180);
     sin := fun t =>
       let t2 := mul t t in
       mul t (fsub (of_Z 1)
               (mul (fdiv t2 (of_Z 6))
                    (fsub (of_Z 1) (fdiv t2 (of_Z 20)))));
     cos := fun t =>
       let t2 := mul t t in
       fsub (of_Z 1)
            (mul (fdiv t2 (of_Z 2))
                 (fsub (of_Z 1) (fdiv t2 (of_Z 12)))) |}.
Arguments taylor_trig F {_}.

(** [math.hypot] on binary64, through the correctly rounded square root. *)
Definition hypot64 (dx dy : float) : float :=
  PrimFloat.sqrt (PrimFloat.add (PrimFloat.mul dx dx) (PrimFloat.mul dy dy)).

(** ** Keyboard state *)

Record Keys : Type := {
  K_UP : bool; K_w : bool;
  K_DOWN : bool; K_s : bool;
  K_LEFT : bool; K_a : bool;
  K_RIGHT : bool; K_d : bool
}.

Definition no_keys : Keys :=
  {| K_UP := false; K_w := false; K_DOWN := false; K_s := false;
     K_LEFT := false; K_a := false; K_RIGHT := false; K_d := false |}.

(** ** class Car *)

Module Car.
Record t (F : Type) : Type := make {
  x : F;
  y : F;
  angle : Z;
  speed : F;
  max_speed : F;
  acceleration : F;
  deceleration : F;
  friction : F;
  turn_speed : Z;
  length : Z;
  width : Z
}.
Arguments make {F}.
Arguments x {F} t.
Arguments y {F} t.
Arguments angle {F} t.
Arguments speed {F} t.
Arguments max_speed {F} t.
Arguments acceleration {F} t.
Arguments deceleration {F} t.
Arguments friction {F} t.
Arguments turn_speed {F} t.
Arguments length {F} t.
Arguments width {F} t.

Section Methods.
Context {F : Type} `{PyFloat F} {T : Trig F}.
Local Open Scope py_scope.

Definition set_speed (self : t F) (v : F) : t F :=
  make (x self) (y self) (angle self) v (max_speed self)
       (acceleration self) (deceleration self) (friction self)
       (turn_speed self) (length self) (width self).

Definition set_angle (self : t F) (a : Z) : t F :=
  make (x self) (y self) a (speed self) (max_speed self)
       (acceleration self) (deceleration self) (friction self)
       (turn_speed self) (length self) (width self).

Definition set_xy (self : t F) (x' y' : F) : t F :=
  make x' y' (angle self) (speed self) (max_speed self)
       (acceleration self) (deceleration self) (friction self)
       (turn_speed self) (length self) (width self).

(** [Car.__init__(self, x, y)]; the sprite is left out. *)
Definition init (x0 y0 : F) : t F :=
  {| x := x0; y := y0;
     angle := 0;
     speed := of_Z 0;
     max_speed := of_Z 7;
     acceleration := lit 0.15;
     deceleration := lit 0.3;
     friction := lit 0.05;
     turn_speed := 4;
     length := 64;
     width := 32 |}.

(** Lines 76-84: throttle, brake, or friction. *)
Definition throttle (self : t F) (keys : Keys) : t F :=
  if K_UP keys || K_w keys then
    set_speed self (speed self + acceleration self)
  else if K_DOWN keys || K_s keys then
    set_speed self (speed self - deceleration self)
  else
    if of_Z 0 <? speed self then
      set_speed self (speed self - friction self)
    else if speed self <? of_Z 0 then
      set_speed self (speed self + friction self)
    else self.

(** Line 86:
    [self.speed = max(min(self.speed, self.max_speed), -self.max_speed / 2)] *)
Definition clamp_speed (self : t F) : t F :=
  set_speed self
    (py_max (py_min (speed self) (max_speed self))
            (- max_speed self / of_Z 2)).

(** Lines 88-90: steering left. *)
Definition steer_left (self : t F) (keys : Keys) : t F :=
  if (K_LEFT keys || K_a keys) && negb (speed self =? of_Z 0) then
    let turn_direction := if of_Z 0 <? speed self then 1%Z else (-1)%Z in
    set_angle self (angle self + turn_speed self * turn_direction)%Z
  else self.

(** Lines 92-94: steering right. *)
Definition steer_right (self : t F) (keys : Keys) : t F :=
  if (K_RIGHT keys || K_d keys) && negb (speed self =? of_Z 0) then
    let turn_direction := if of_Z 0 <? speed self then (-1)%Z else 1%Z in
    set_angle self (angle self + turn_speed self * turn_direction)%Z
  else self.

(** Lines 96-101: position integration and the wall clamp.  Line 96
    returns when the heading fits a double ([fits_double]); past that
    [math.radians] raises and the position is left as it was, the speed
    and the heading being already written. *)
Definition move (self : t F) : t F :=
  let rad := radians (angle self) in
  let x1 := x self + (- sin rad) * speed self in
  let y1 := y self + (- cos rad) * speed self in
  set_xy self
    (py_max (of_Z 0) (py_min (of_Z WIDTH) x1))
    (py_max (of_Z 0) (py_min (of_Z HEIGHT) y1)).

(** [Car.update(self, keys)] *)
Definition update (self : t F) (keys : Keys) : t F :=
  move (steer_right (steer_left (clamp_speed (throttle self keys)) keys) keys).

(** The tuning constants [__init__] sets; [update] never writes them. *)
Definition tuned (self : t F) : Prop :=
  max_speed self = of_Z 7
  /\ acceleration self = lit 0.15
  /\ deceleration self = lit 0.3
  /\ friction self = lit 0.05
  /\ turn_speed self = 4%Z
  /\ length self = 64%Z
  /\ width self = 32%Z.
End Methods.
End Car.

(** ** class Track *)

Module Track.
Record t (F : Type) : Type := make {
  surface : Surface.t F;
  track_color : rgb;
  road_width : Z;
  center_path : list (F * F);
  (* set by [__init__] only after [_draw_track] has run *)
  finish_line : option Rect.t;
  finish_line_color : option rgb
}.
Arguments make {F}.
Arguments surface {F} t.
Arguments track_color {F} t.
Arguments road_width {F} t.
Arguments center_path {F} t.
Arguments finish_line {F} t.
Arguments finish_line_color {F} t.

(** Reading an attribute that has not been assigned yet. *)
Definition getattr {A : Type} (a : option A) : result A :=
  match a with
  | Some v => Ok v
  | None => Raise AttributeError
  end.

(** The pairs [(l[i], l[i + 1])] for [i in range(len(l) - 1)]. *)
Fixpoint consecutive {A : Type} (l : list A) : list (A * A) :=
  match l with
  | a :: ((b :: _) as l') => (a, b) :: consecutive l'
  | _ => []
  end.

(** [l[0]] and [l[-1]] *)
Definition first {A : Type} (l : list A) : result A :=
  match l with
  | a :: _ => Ok a
  | [] => Raise IndexError
  end.

Definition last {A : Type} (l : list A) : result A :=
  first (rev l).

Section Methods.
Context {F : Type} `{PyFloat F} {R : Raster F}.
(** [math.hypot] *)
Variable hypot : F -> F -> F.
Local Open Scope py_scope.

Definition set_surface (self : t F) (s : Surface.t F) : t F :=
  make s (track_color self) (road_width self) (center_path self)
       (finish_line self) (finish_line_color self).

(** Lines 132-142 (and again 144-153): the left and right boundary
    points of the segment from [(cx, cy)] to [(nx, ny)]. *)
Definition offsets (self : t F) (seg : (F * F) * (F * F))
  : result ((F * F) * (F * F)) :=
  let '((cx, cy), (nx, ny)) := seg in
  let dx := nx - cx in
  let dy := ny - cy in
  let length := py_or (hypot dx dy) (of_Z 1) in
  dx <- py_div dx length ;;
  dy <- py_div dy length ;;
  half <- py_div (of_Z (road_width self)) (of_Z 2) ;;
  let plx := (- dy) * half in
  half <- py_div (of_Z (road_width self)) (of_Z 2) ;;
  let ply := dx * half in
  Ok ((cx + plx, cy + ply), (cx - plx, cy - ply)).

Fixpoint offsets_loop (self : t F) (segs : list ((F * F) * (F * F)))
  : result (list (F * F) * list (F * F)) :=
  match segs with
  | [] => Ok ([], [])
  | seg :: segs' =>
      '(l, r) <- offsets self seg ;;
      '(points_left, points_right) <- offsets_loop self segs' ;;
      Ok (l :: points_left, r :: points_right)
  end.

(** The loop [for i in range(dash_count)] of [_draw_dashed_line],
    from index [i] on. *)
Fixpoint dashes (surf : Surface.t F) (color : rgb) (x1 y1 : F)
  (dash_dx dash_dy space_dx space_dy : F) (width : Z)
  (i : Z) (count : nat) : Surface.t F :=
  match count with
  | O => surf
  | S count' =>
      let start_x := x1 + (dash_dx + space_dx) * of_Z i in
      let start_y := y1 + (dash_dy + space_dy) * of_Z i in
      let end_x := start_x + dash_dx in
      let end_y := start_y + dash_dy in
      dashes
        (Surface.draw surf
           (Line color (start_x, start_y) (end_x, end_y) width))
        color x1 y1 dash_dx dash_dy space_dx space_dy width
        (i + 1)%Z count'
  end.

(** [Track._draw_dashed_line] *)
Definition _draw_dashed_line (surf : Surface.t F) (color : rgb)
  (start_pos end_pos : F * F) (dash_length space_length width : Z)
  : result (Surface.t F) :=
  let '(x1, y1) := start_pos in
  let '(x2, y2) := end_pos in
  let length := hypot (x2 - x1) (y2 - y1) in
  q <- py_div length (of_Z (dash_length + space_length)) ;;
  dash_count <- py_int q ;;
  ux <- py_div (x2 - x1) length ;;
  let dash_dx := ux * of_Z dash_length in
  uy <- py_div (y2 - y1) length ;;
  let dash_dy := uy * of_Z dash_length in
  ux <- py_div (x2 - x1) length ;;
  let space_dx := ux * of_Z space_length in
  uy <- py_div (y2 - y1) length ;;
  let space_dy := uy * of_Z space_length in
  Ok (dashes surf color x1 y1 dash_dx dash_dy space_dx space_dy width
             0%Z (Z.to_nat dash_count)).

(** Lines 158-161 *)
Fixpoint dashed_loop (surf : Surface.t F)
  (segs : list ((F * F) * (F * F))) : result (Surface.t F) :=
  match segs with
  | [] => Ok surf
  | (start, end_) :: segs' =>
      surf <- _draw_dashed_line surf WHITE start end_ 15 10 3 ;;
      dashed_loop surf segs'
  end.

(** [Track._draw_track] *)
Definition _draw_track (self : t F) : result (t F) :=
  let surf := Surface.draw (surface self) (Fill GREEN) in
  let segs := consecutive (center_path self) in
  '(points_left, points_right) <- offsets_loop self segs ;;
  c <- last (center_path self) ;;
  n <- first (center_path self) ;;
  '(l, r) <- offsets self (c, n) ;;
  let points_left := points_left ++ [l] in
  let points_right := points_right ++ [r] in
  let track_poly := points_left ++ rev points_right in
  surf <- draw_polygon surf (track_color self) track_poly ;;
  surf <- dashed_loop surf segs ;;
  color <- getattr (finish_line_color self) ;;
  rect <- getattr (finish_line self) ;;
  Ok (set_surface self (Surface.draw surf (DrawRect color rect))).

(** The hard-coded centre line, closed by repeating its first point. *)
Definition default_path : list (F * F) :=
  let p (a b : Z) := (of_Z a, of_Z b) in
  let path :=
    [ p (WIDTH / 2) (HEIGHT / 4); p (WIDTH / 2 + 160) (HEIGHT / 2 - 100);
      p (WIDTH / 2 + 180) (HEIGHT / 2 + 50);
      p (WIDTH / 2 + 140) (HEIGHT / 2 + 150);
      p (WIDTH / 2) (HEIGHT / 2 + 210);
      p (WIDTH / 2 - 130) (HEIGHT / 2 + 180);
      p (WIDTH / 2 - 160) (HEIGHT / 2 + 100);
      p (WIDTH / 2 - 110) (HEIGHT / 2 - 30) ]%Z in
  path ++ [p (WIDTH / 2) (HEIGHT / 4)]%Z.

(** [Track.__init__], for a given centre line: the attributes assigned
    before [_draw_track] is called (lines 109-120), and the whole. *)
Definition fresh (path : list (F * F)) : t F :=
  {| surface := Surface.draw (Surface.new WIDTH HEIGHT) (Fill GREEN);
     track_color := GRAY;
     road_width := 180;
     center_path := path;
     finish_line := None;
     finish_line_color := None |}.

Definition init_with (path : list (F * F)) : result (t F) :=
  self <- _draw_track (fresh path) ;;
  Ok (make (surface self) (track_color self) (road_width self)
           (center_path self)
           (Some (Rect.make (WIDTH / 2 - 5)
                            (HEIGHT / 4 - road_width self / 2)
                            10 (road_width self)))
           (Some RED)).

Definition init : result (t F) := init_with default_path.

(** [color_close(c1, c2, tol=30)] of [is_on_track] *)
Definition color_close (c1 c2 : rgb) (tol : Z) : bool :=
  forallb (fun i => (Z.abs (chan c1 i - chan c2 i) <? tol)%Z)
          (seq 0 3).

(** [Track.is_on_track] *)
Definition is_on_track (self : t F) (x y : F) : result bool :=
  try_except_IndexError
    (ix <- py_int x ;;
     iy <- py_int y ;;
     c <- Surface.get_at (surface self) ix iy ;;
     let color := slice3 c in
     Ok (color_close color (track_color self) 30
         || color_close color WHITE 30))
    (Ok false).

(** [Track.check_finish_line_cross] *)
Definition check_finish_line_cross (self : t F) (rect prev_rect : Rect.t)
  : result bool :=
  fl <- getattr (finish_line self) ;;
  if Rect.colliderect fl rect then
    fl <- getattr (finish_line self) ;;
    Ok (negb (Rect.colliderect fl prev_rect))
  else Ok false.
End Methods.
End Track.

(** ** class Game *)

Module Game.
Record t (F : Type) : Type := make {
  track : Track.t F;
  car : Car.t F;
  start_time : option F;
  lap_time : F;
  best_lap_time : option F;
  laps_completed : Z;
  prev_car_rect : Rect.t;
  game_over : bool
}.
Arguments make {F}.
Arguments track {F} t.
Arguments car {F} t.
Arguments start_time {F} t.
Arguments lap_time {F} t.
Arguments best_lap_time {F} t.
Arguments laps_completed {F} t.
Arguments prev_car_rect {F} t.
Arguments game_over {F} t.

(** What one iteration of the loop reads from outside: the keyboard
    state and the wall clock ([time.time()]). *)
Record input (F : Type) : Type := tick { keys : Keys; now : F }.
Arguments tick {F}.
Arguments keys {F} i.
Arguments now {F} i.

(** The four fields of the lap timer. *)
Record laps (F : Type) : Type := mk_laps {
  l_start_time : option F;
  l_lap_time : F;
  l_best_lap_time : option F;
  l_laps_completed : Z
}.
Arguments mk_laps {F}.
Arguments l_start_time {F} l.
Arguments l_lap_time {F} l.
Arguments l_best_lap_time {F} l.
Arguments l_laps_completed {F} l.

Section Methods.
Context {F : Type} `{PyFloat F} {T : Trig F} {R : Raster F}.
Variable hypot : F -> F -> F.
Local Open Scope py_scope.

Definition timer (self : t F) : laps F :=
  mk_laps (start_time self) (lap_time self) (best_lap_time self)
          (laps_completed self).

Definition set_car (self : t F) (c : Car.t F) : t F :=
  make (track self) c (start_time self) (lap_time self)
       (best_lap_time self) (laps_completed self) (prev_car_rect self)
       (game_over self).

Definition set_timer (self : t F) (l : laps F) : t F :=
  make (track self) (car self) (l_start_time l) (l_lap_time l)
       (l_best_lap_time l) (l_laps_completed l) (prev_car_rect self)
       (game_over self).

Definition set_prev_car_rect (self : t F) (r : Rect.t) : t F :=
  make (track self) (car self) (start_time self) (lap_time self)
       (best_lap_time self) (laps_completed self) r (game_over self).

(** [Game.__init__] *)
Definition init : result (t F) :=
  track <- Track.init hypot ;;
  '(start_x, start_y) <- Track.first (Track.center_path track) ;;
  let car := Car.init start_x (start_y + of_Z 50) in
  prev <- Rect.of_floats (Car.x car) (Car.y car)
            (Car.length car) (Car.width car) ;;
  Ok {| track := track;
        car := car;
        start_time := None;
        lap_time := of_Z 0;
        best_lap_time := None;
        laps_completed := 0;
        prev_car_rect := prev;
        game_over := false |}.

(** [self.best_lap_time or lap] *)
Definition best_or (best : option F) (lap : F) : F :=
  match best with
  | None => lap
  | Some b => py_or b lap
  end.

(** Lines 227-235: the body run on a crossing event, at clock [now]. *)
Definition crossing (l : laps F) (now : F) : laps F :=
  match l_start_time l with
  | None => mk_laps (Some now) (l_lap_time l) (l_best_lap_time l)
                    (l_laps_completed l)
  | Some start =>
      let lap := now - start in
      mk_laps (Some now) lap
              (Some (py_min (best_or (l_best_lap_time l) lap) lap))
              (l_laps_completed l + 1)%Z
  end.

(** Lines 223-224: the off-track penalty. *)
Definition penalty (c : Car.t F) (on_track : bool) : Car.t F :=
  if negb on_track then Car.set_speed c (Car.speed c * lit 0.95) else c.

(** [Game.update] *)
Definition update (self : t F) (i : input F) : result (t F) :=
  let self := set_car self (Car.update (car self) (keys i)) in
  let c := car self in
  car_rect <- Rect.of_floats
                (Car.x c - of_Z (Car.length c / 2))
                (Car.y c - of_Z (Car.width c / 2))
                (Car.length c) (Car.width c) ;;
  on <- Track.is_on_track (track self) (Car.x c) (Car.y c) ;;
  let self := set_car self (penalty c on) in
  crossed <- Track.check_finish_line_cross (track self) car_rect
               (prev_car_rect self) ;;
  let self :=
    if crossed && (of_Z 0 <? Car.speed (car self))
    then set_timer self (crossing (timer self) (now i))
    else self in
  Ok (set_prev_car_rect self car_rect).

(** The loop of [Game.run], over the inputs of successive ticks;
    returns the state after each tick. *)
Fixpoint run (self : t F) (inputs : list (input F))
  : result (list (t F)) :=
  match inputs with
  | [] => Ok []
  | i :: inputs' =>
      self <- update self i ;;
      rest <- run self inputs' ;;
      Ok (self :: rest)
  end.
End Methods.
End Game.

(** ** Vocabulary of the properties *)

(** The accelerate, brake and steering inputs, as [Car.update] reads them. *)
Definition accelerate (k : Keys) : bool := K_UP k || K_w k.
Definition brake (k : Keys) : bool := K_DOWN k || K_s k.
Definition steer_left (k : Keys) : bool := K_LEFT k || K_a k.
Definition steer_right (k : Keys) : bool := K_RIGHT k || K_d k.

Definition hold_up : Keys :=
  {| K_UP := true; K_w := false; K_DOWN := false; K_s := false;
     K_LEFT := false; K_a := false; K_RIGHT := false; K_d := false |}.

Definition hold_left : Keys :=
  {| K_UP := false; K_w := false; K_DOWN := false; K_s := false;
     K_LEFT := true; K_a := false; K_RIGHT := false; K_d := false |}.

Definition hold_down_left : Keys :=
  {| K_UP := false; K_w := false; K_DOWN := true; K_s := false;
     K_LEFT := true; K_a := false; K_RIGHT := false; K_d := false |}.

Definition hold_left_right : Keys :=
  {| K_UP := true; K_w := false; K_DOWN := false; K_s := false;
     K_LEFT := true; K_a := false; K_RIGHT := false; K_d := true |}.

(** The speed at the time steering is evaluated: after line 86. *)
Definition steering_speed {F : Type} `{PyFloat F} (c : Car.t F) (k : Keys) : F :=
  Car.speed (Car.clamp_speed (Car.throttle c k)).

(** [Car.update] on each of a list of keyboard states in turn. *)
Definition drive {F : Type} `{PyFloat F} {T : Trig F}
  (c : Car.t F) (ks : list Keys) : Car.t F :=
  fold_left Car.update ks c.

(** Per-channel closeness, all three channels at once, strictly below
    the tolerance. *)
Definition within (tol : Z) (c ref : rgb) : Prop :=
  let '(r, g, b) := c in
  let '(r', g', b') := ref in
  (Z.abs (r - r') < tol /\ Z.abs (g - g') < tol /\ Z.abs (b - b') < tol)%Z.

(** *** Sample states *)

Module Sample.
#[local] Existing Instance taylor_trig.
#[local] Existing Instance flat_raster.

(** A track as [Track.__init__] means to leave it, with a plain road. *)
Definition track (F : Type) `{PyFloat F} (road : rgb) : Track.t F :=
  {| Track.surface :=
       Surface.draw (Surface.new WIDTH HEIGHT) (Fill road);
     Track.track_color := GRAY;
     Track.road_width := 180;
     Track.center_path := Track.default_path;
     Track.finish_line := Some (Rect.make 395 60 10 180);
     Track.finish_line_color := Some RED |}.
Arguments track F {_} road.

(** A car backing toward the finish line from above it. *)
Definition reversing (F : Type) `{PyFloat F} : Game.t F :=
  {| Game.track := track F GRAY;
     Game.car := Car.set_speed (Car.init (of_Z 400) (of_Z 43)) (of_Z (-3));
     Game.start_time := Some (of_Z 100);
     Game.lap_time := of_Z 0;
     Game.best_lap_time := None;
     Game.laps_completed := 0;
     Game.prev_car_rect := Rect.make 368 27 64 32;
     Game.game_over := false |}.
Arguments reversing F {_}.

(** The same car one tick later, with brake and steer-left held. *)
Definition reversed : Game.t float :=
  Eval vm_compute in
    match Game.update (reversing float)
            (Game.tick hold_down_left (of_Z 105)) with
    | Ok g => g
    | Raise _ => reversing float
    end.

(** A car driving up to the finish line from below it, the timer
    running, and the two ticks that take it onto the line. *)
Definition approaching (F : Type) `{PyFloat F} : Game.t F :=
  {| Game.track := track F GRAY;
     Game.car := Car.set_speed (Car.init (of_Z 400) (of_Z 260)) (of_Z 7);
     Game.start_time := Some (of_Z 100);
     Game.lap_time := of_Z 0;
     Game.best_lap_time := None;
     Game.laps_completed := 0;
     Game.prev_car_rect := Rect.make 368 244 64 32;
     Game.game_over := false |}.
Arguments approaching F {_}.

Definition onto_the_line : list (Game.input float) :=
  [Game.tick hold_up (of_Z 105); Game.tick hold_up (of_Z 106)].

Definition lap_run : list (Game.t float) :=
  Eval vm_compute in
    match Game.run (approaching float) onto_the_line with
    | Ok states => states
    | Raise _ => []
    end.

(** A closed centre line whose first two points coincide. *)
Definition degenerate_path : list (float * float) :=
  let p (a b : Z) := (of_Z a, of_Z b) in
  [p 400 150; p 400 150; p 560 200; p 580 350; p 400 150]%Z.

(** A car at rest on the start line. *)
Definition at_rest (F : Type) `{PyFloat F} : Car.t F :=
  Car.init (of_Z 400) (of_Z 200).
Arguments at_rest F {_}.
End Sample.

(** *** Coasting and pulling away *)

(** [n] ticks with accelerate held, and [n] ticks with no key held. *)
Definition full_throttle (n : nat) : list Keys := repeat hold_up n.
Definition coasting (n : nat) : list Keys := repeat no_keys n.

(** One tick of throttle from rest, then two ticks of coasting: in
    binary64 the speed is then just below the friction constant. *)
Definition creeping : Car.t float :=
  drive (T := taylor_trig float) (Sample.at_rest float)
        (hold_up :: coasting 2).

Definition creep_forward : float := Eval vm_compute in Car.speed creeping.
Definition creep_back : float :=
  Eval vm_compute in
    Car.speed (Car.update (T := taylor_trig float) creeping no_keys).

(** Line 86 after line 77, as a function of the speed alone. *)
Definition accelerate_step {F : Type} `{PyFloat F} (s : F) : F :=
  py_max (py_min (fadd s (lit 0.15)) (of_Z 7)) (fdiv (fneg (of_Z 7)) (of_Z 2)).

(** The scenario of the linear ramp, read in the arithmetic [F]: after
    [n] ticks of full throttle from rest the speed equals
    [min(0.15 * n, 7)]. *)
Definition linear_ramp (F : Type) `{PyFloat F} {T : Trig F} (n : nat) : Prop :=
  feqb (Car.speed (drive (Sample.at_rest F) (full_throttle n)))
       (py_min (fmul (lit 0.15) (of_Z (Z.of_nat n))) (of_Z 7))
  = true.
Arguments linear_ramp F {_ _} n.

(** The binary64 speed is within [tol] of the exact ramp. *)
Definition near_ramp (tol : Q) (n : nat) (s : float) : bool :=
  match float_value s with
  | Some q =>
      Qle_bool (Qabs (q - Qmin (0.15 * inject_Z (Z.of_nat n)) 7)) tol
  | None => false
  end.

(** *** Lap records *)

Section LapRecords.
Context {F : Type} `{PyFloat F}.

(** The timer [Game.__init__] sets up. *)
Definition not_started : Game.laps F := Game.mk_laps None (of_Z 0) None 0.

(** The timer after crossing events at the clock readings [ts]. *)
Definition crossings (ts : list F) (l : Game.laps F) : Game.laps F :=
  fold_left Game.crossing ts l.

(** The lap durations recorded by crossing events at [ts], the previous
    one having been at [start]. *)
Fixpoint durations (start : F) (ts : list F) : list F :=
  match ts with
  | [] => []
  | t :: ts' => fsub t start :: durations t ts'
  end.

(** [b] is the least of [ds]. *)
Definition minimum_of (b : F) (ds : list F) : Prop :=
  (exists d, In d ds /\ feqb b d = true)
  /\ (forall d, In d ds -> fltb d b = false).

(** After crossing events at [t0 :: ts], the best lap is recorded, is at
    most the last lap, and is the least of the recorded durations. *)
Definition best_lap_is_minimum (t0 : F) (ts : list F) : Prop :=
  let l := crossings (t0 :: ts) not_started in
  exists best,
    Game.l_best_lap_time l = Some best
    /\ fltb (Game.l_lap_time l) best = false
    /\ minimum_of best (durations t0 ts).
End LapRecords.

Definition nonzero (d : Q) : Prop := ~ d == 0.

(** What the timer keeps between crossing events, [ds] being the
    durations recorded so far. *)
Definition lap_inv (l : Game.laps Q) (ds : list Q) : Prop :=
  match Game.l_best_lap_time l with
  | None => ds = []
  | Some b =>
      ds <> []
      /\ b <= Game.l_lap_time l
      /\ (Forall nonzero ds -> minimum_of b ds)
  end.

(** The speed range of the spec: from [-max_speed / 2] to [max_speed]. *)
Definition in_range (s : Q) : Prop := - (7 # 2) <= s /\ s <= 7.

(** *** The speed range on binary64 *)

(** [max_speed] and [-max_speed / 2] as binary64 numbers. *)
Definition hi64 : spec_float := S754_finite false 7881299347898368 (-50).
Definition lo64 : spec_float := S754_finite true 7881299347898368 (-51).

Definition SF_in_range (x : spec_float) : Prop :=
  SFleb lo64 x = true /\ SFleb x hi64 = true.

Definition SFfinite (x : spec_float) : Prop :=
  match x with
  | S754_zero _ | S754_finite _ _ _ => True
  | S754_infinity _ | S754_nan => False
  end.

(** The range, in the order of the floats themselves. *)
Definition in_range64 (s : float) : Prop :=
  PrimFloat.leb (fdiv (fneg (of_Z 7)) (of_Z 2)) s = true
  /\ PrimFloat.leb s (of_Z 7) = true.

(** The exponent function of the format. *)
Abbreviation fexp64 := (fexp prec emax).

(** The second half of [binary_round_aux]: renormalise and pack. *)
Definition finish (sx : bool) (m1 e1 : Z) : spec_float :=
  let '(mrs, e2) := shr_fexp prec emax m1 e1 loc_Exact in
  match shr_m mrs with
  | Z0 => S754_zero sx
  | Zpos m =>
      if (e2 <=? emax - prec)%Z then S754_finite sx m e2
      else S754_infinity sx
  | Zneg _ => S754_nan
  end.

(** What one tick does to the car: [Car.update], then the off-track
    penalty if the centre of the car samples as off-track ([on = false]). *)
Definition tick_car {F : Type} `{PyFloat F} {T : Trig F}
  (c : Car.t F) (i : Keys * bool) : Car.t F :=
  Game.penalty (Car.update c (fst i)) (snd i).

(** The cars after each tick of a history of keys and on-track samples. *)
Fixpoint ride {F : Type} `{PyFloat F} {T : Trig F}
  (c : Car.t F) (history : list (Keys * bool)) : list (Car.t F) :=
  match history with
  | [] => []
  | i :: history' => tick_car c i :: ride (tick_car c i) history'
  end.

(** *** More vocabulary: idle keys, the field, the brake *)

(** Neither accelerate nor brake is held (steering is free). *)
Definition idle (k : Keys) : Prop := accelerate k = false /\ brake k = false.

(** Brake held, accelerate not. *)
Definition braking (k : Keys) : Prop := accelerate k = false /\ brake k = true.

Definition hold_down : Keys :=
  {| K_UP := false; K_w := false; K_DOWN := true; K_s := false;
     K_LEFT := false; K_a := false; K_RIGHT := false; K_d := false |}.

Definition hold_w_a : Keys :=
  {| K_UP := false; K_w := true; K_DOWN := false; K_s := false;
     K_LEFT := false; K_a := true; K_RIGHT := false; K_d := false |}.

Definition hold_up_down_left : Keys :=
  {| K_UP := true; K_w := false; K_DOWN := true; K_s := false;
     K_LEFT := true; K_a := false; K_RIGHT := false; K_d := false |}.

(** Line 86 after line 79, as a function of the speed alone. *)
Definition brake_step {F : Type} `{PyFloat F} (s : F) : F :=
  py_max (py_min (fsub s (lit 0.3)) (of_Z 7)) (fdiv (fneg (of_Z 7)) (of_Z 2)).

(** The number of steer inputs held, left counted +1 and right -1. *)
Definition steer_sum (k : Keys) : Z :=
  ((if steer_left k then 1 else 0) - (if steer_right k then 1 else 0))%Z.

(** The play field, [0..WIDTH] by [0..HEIGHT], in the order of the
    floats and on the rationals. *)
Definition in_field64 (x y : float) : Prop :=
  PrimFloat.leb (of_Z 0) x = true /\ PrimFloat.leb x (of_Z WIDTH) = true
  /\ PrimFloat.leb (of_Z 0) y = true /\ PrimFloat.leb y (of_Z HEIGHT) = true.

Definition in_field (x y : Q) : Prop :=
  0 <= x /\ x <= inject_Z WIDTH /\ 0 <= y /\ y <= inject_Z HEIGHT.

(** The heading line 96 hands to [math.radians]: the heading as the
    steering of lines 88-94 leaves it. *)
Definition steered_heading {F : Type} `{PyFloat F} (c : Car.t F) (k : Keys)
  : Z :=
  Car.angle
    (Car.steer_right (Car.steer_left (Car.clamp_speed (Car.throttle c k)) k) k).

(** The lap counters along a run never drop and rise by one at most. *)
Definition counts_up (a b : Z) : Prop := (a <= b <= a + 1)%Z.

(** A [hypot] on the rationals: the square root of [dx^2 + dy^2],
    rounded down to a multiple of the denominator's unit; exact when the
    sum is the square of a rational. *)
Definition hypot_isqrt (dx dy : Q) : Q :=
  let q := Qred (dx * dx + dy * dy) in
  Z.sqrt (Qnum q * Zpos (Qden q)) # Qden q.

(** *** More vocabulary: the drawing of the track *)

(** A dash of the centre guide line. *)
Definition guide_dash {F : Type} (op : draw_op F) : Prop :=
  exists p q : F * F, op = Line WHITE p q 3.

(** A segment the dashed line can be drawn on: [hypot] does not measure
    it as zero, and the dash count [int(length / 25)] exists. *)
Definition drawable {F : Type} `{PyFloat F} (hypot : F -> F -> F)
  (seg : (F * F) * (F * F)) : Prop :=
  let '((x1, y1), (x2, y2)) := seg in
  feqb (hypot (fsub x2 x1) (fsub y2 y1)) (of_Z 0) = false
  /\ is_ok (py_int (fdiv (hypot (fsub x2 x1) (fsub y2 y1)) (of_Z 25))) = true.

(** Line 86 after lines 81-84, as a function of the speed alone. *)
Definition coast_step {F : Type} `{PyFloat F} (s : F) : F :=
  let s' := if fltb (of_Z 0) s then fsub s (lit 0.05)
            else if fltb s (of_Z 0) then fadd s (lit 0.05)
            else s in
  py_max (py_min s' (of_Z 7)) (fdiv (fneg (of_Z 7)) (of_Z 2)).

(** The car stands still and has kept the heading [a]. *)
Definition parked {F : Type} `{PyFloat F} (a : Z) (c : Car.t F) : Prop :=
  feqb (Car.speed c) (of_Z 0) = true /\ Car.angle c = a.

(** *** More vocabulary: the lap timer on binary64 *)

(** A clock reading that is a number: neither nan nor an infinity. *)
Definition finite64 (t : float) : Prop := SFfinite (Prim2SF t).

(** What the timer keeps on binary64: a start reading that is a number,
    and a best lap, if any, that is not nan and at most the last lap. *)
Definition lap_inv64 (l : Game.laps float) : Prop :=
  (exists start, Game.l_start_time l = Some start /\ finite64 start)
  /\ match Game.l_best_lap_time l with
     | None => True
     | Some b =>
         Prim2SF b <> S754_nan
         /\ PrimFloat.leb b (Game.l_lap_time l) = true
     end.

(** ** Properties that hold in every arithmetic *)

Section AnyArithmetic.
Context {F : Type} `{PyFloat F} {T : Trig F} {R : Raster F}.
Local Open Scope py_scope.

Lemma angle_set_speed (c : Car.t F) (v : F) :
  Car.angle (Car.set_speed c v) = Car.angle c.
Proof. reflexivity. Qed.

Lemma angle_throttle (c : Car.t F) (k : Keys) :
  Car.angle (Car.throttle c k) = Car.angle c.
Proof.
  unfold Car.throttle.
  repeat match goal with |- context [if ?b then _ else _] => destruct b end;
    reflexivity.
Qed.

Lemma angle_move (c : Car.t F) : Car.angle (Car.move c) = Car.angle c.
Proof. reflexivity. Qed.

Lemma speed_steer_left (c : Car.t F) (k : Keys) :
  Car.speed (Car.steer_left c k) = Car.speed c.
Proof. unfold Car.steer_left. destruct (_ && _); reflexivity. Qed.

Lemma speed_steer_right (c : Car.t F) (k : Keys) :
  Car.speed (Car.steer_right c k) = Car.speed c.
Proof. unfold Car.steer_right. destruct (_ && _); reflexivity. Qed.

Lemma turn_speed_steer_left (c : Car.t F) (k : Keys) :
  Car.turn_speed (Car.steer_left c k) = Car.turn_speed c.
Proof. unfold Car.steer_left. destruct (_ && _); reflexivity. Qed.

(** The speed [Car.update] leaves is the clamped speed of line 86. *)
Lemma speed_update (c : Car.t F) (k : Keys) :
  Car.speed (Car.update c k) = steering_speed c k.
Proof.
  unfold Car.update, steering_speed.
  change (Car.speed (Car.move ?c)) with (Car.speed c).
  now rewrite speed_steer_right, speed_steer_left.
Qed.

(** The heading [Car.update] leaves is decided by the two steering
    statements alone. *)
Lemma angle_update (c : Car.t F) (k : Keys) :
  Car.angle (Car.update c k)
  = Car.angle (Car.steer_right
                 (Car.steer_left (Car.clamp_speed (Car.throttle c k)) k) k).
Proof. reflexivity. Qed.

(** C9.  In one tick the heading changes only if the speed is nonzero
    when steering is evaluated and a steer input (left or right) is
    held: if the speed is zero there, or no steer input is held, the
    heading after [Car.update] is the heading before it. *)
Theorem heading_invariant_unless_moving_and_steering
  (c : Car.t F) (k : Keys) :
  (steering_speed c k =? of_Z 0) = true
  \/ (steer_left k = false /\ steer_right k = false) ->
  Car.angle (Car.update c k) = Car.angle c.
Proof.
  intros Hstill.
  rewrite angle_update.
  unfold Car.steer_right.
  rewrite speed_steer_left.
  unfold Car.steer_left.
  fold (steer_left k) (steer_right k) (steering_speed c k).
  destruct Hstill as [Hzero | [Hl Hr]].
  - rewrite Hzero. cbn [negb].
    rewrite !andb_false_r.
    unfold Car.clamp_speed. rewrite angle_set_speed. apply angle_throttle.
  - rewrite Hl, Hr. cbn [andb].
    unfold Car.clamp_speed. rewrite angle_set_speed. apply angle_throttle.
Qed.

(** C10.  With steer-left and steer-right both held while the car
    moves, the left turn adds [turn_speed * d] and the right turn adds
    [turn_speed * (- d)], for the same [d] (1 forward, -1 in reverse):
    the two cancel and the heading after [Car.update] is the heading
    before it, whatever the speed and the heading. *)
Theorem opposite_steering_cancels (c : Car.t F) (k : Keys) :
  steer_left k = true ->
  steer_right k = true ->
  (steering_speed c k =? of_Z 0) = false ->
  let c1 := Car.clamp_speed (Car.throttle c k) in
  let c2 := Car.steer_left c1 k in
  let c3 := Car.steer_right c2 k in
  exists d : Z,
    (d = 1 \/ d = -1)%Z
    /\ Car.angle c2 = (Car.angle c + Car.turn_speed c1 * d)%Z
    /\ Car.angle c3 = (Car.angle c2 + Car.turn_speed c1 * (- d))%Z
    /\ Car.angle (Car.update c k) = Car.angle c.
Proof.
  intros Hl Hr Hmoving c1 c2 c3.
  assert (H1 : Car.angle c1 = Car.angle c).
  { unfold c1, Car.clamp_speed. rewrite angle_set_speed. apply angle_throttle. }
  assert (Hs2 : Car.speed c2 = steering_speed c k)
    by apply speed_steer_left.
  assert (Ht2 : Car.turn_speed c2 = Car.turn_speed c1)
    by apply turn_speed_steer_left.
  set (fwd := of_Z 0 <? steering_speed c k).
  assert (Ha2 : Car.angle c2
                = (Car.angle c + Car.turn_speed c1
                   * (if fwd then 1 else -1))%Z).
  { unfold c2, Car.steer_left. fold (steer_left k).
    change (Car.speed c1) with (steering_speed c k).
    rewrite Hl, Hmoving. cbn [andb negb Car.angle Car.set_angle]. now rewrite H1. }
  assert (Ha3 : Car.angle c3
                = (Car.angle c2 + Car.turn_speed c1
                   * (if fwd then -1 else 1))%Z).
  { unfold c3, Car.steer_right. fold (steer_right k).
    rewrite Hs2, Ht2, Hr, Hmoving. reflexivity. }
  rewrite angle_update. fold c1 c2 c3.
  rewrite Ha3, Ha2.
  destruct fwd.
  - exists 1%Z. repeat split; lia.
  - exists (-1)%Z. repeat split; lia.
Qed.
End AnyArithmetic.

Section Sampler.
Context {F : Type} `{PyFloat F} {R : Raster F}.

Lemma get_at_in_c_int (s : Surface.t F) (x y : Z) :
  c_int x = true -> c_int y = true ->
  Surface.get_at s x y
  = if ((0 <=? x) && (x <? Surface.width s)
        && (0 <=? y) && (y <? Surface.height s))%Z
    then Ok (pixel (Surface.ops s) x y)
    else Raise IndexError.
Proof. intros Hx Hy. unfold Surface.get_at. now rewrite Hx, Hy. Qed.


Lemma get_at_inside (s : Surface.t F) (x y : Z) :
  c_int x = true -> c_int y = true ->
  (0 <= x < Surface.width s)%Z -> (0 <= y < Surface.height s)%Z ->
  Surface.get_at s x y = Ok (pixel (Surface.ops s) x y).
Proof.
  intros Hcx Hcy Hx Hy. rewrite get_at_in_c_int by assumption.
  replace (0 <=? x)%Z with true by (symmetry; apply Z.leb_le; lia).
  replace (x <? Surface.width s)%Z with true by (symmetry; apply Z.ltb_lt; lia).
  replace (0 <=? y)%Z with true by (symmetry; apply Z.leb_le; lia).
  replace (y <? Surface.height s)%Z with true by (symmetry; apply Z.ltb_lt; lia).
  reflexivity.
Qed.

Lemma get_at_outside (s : Surface.t F) (x y : Z) :
  c_int x = true -> c_int y = true ->
  ~ ((0 <= x < Surface.width s)%Z /\ (0 <= y < Surface.height s)%Z) ->
  Surface.get_at s x y = Raise IndexError.
Proof.
  intros Hcx Hcy Hout. rewrite get_at_in_c_int by assumption.
  destruct (0 <=? x)%Z eqn:E1; [|reflexivity].
  destruct (x <? Surface.width s)%Z eqn:E2; [|reflexivity].
  destruct (0 <=? y)%Z eqn:E3; [|reflexivity].
  destruct (y <? Surface.height s)%Z eqn:E4; [|reflexivity].
  exfalso. apply Hout.
  apply Z.leb_le in E1, E3. apply Z.ltb_lt in E2, E4. lia.
Qed.

(** A position in the field has C int coordinates. *)
Lemma c_int_in_field (z bound : Z) :
  (0 <= z <= bound)%Z -> (bound <= INT_MAX)%Z -> c_int z = true.
Proof.
  intros Hz Hb. unfold c_int, INT_MIN, INT_MAX in *.
  apply andb_true_iff. split; [apply Z.leb_le | apply Z.leb_le]; lia.
Qed.

(** What [is_on_track] returns once [int(x)] and [int(y)] are known. *)
Lemma is_on_track_at (tr : Track.t F) (x y : F) (ix iy : Z) :
  py_int x = Ok ix -> py_int y = Ok iy ->
  Track.is_on_track tr x y
  = match Surface.get_at (Track.surface tr) ix iy with
    | Ok c =>
        Ok (Track.color_close (slice3 c) (Track.track_color tr) 30
            || Track.color_close (slice3 c) WHITE 30)
    | Raise IndexError => Ok false
    | Raise e => Raise e
    end.
Proof.
  intros Hx Hy. unfold Track.is_on_track. rewrite Hx, Hy. cbn [bind].
  destruct (Surface.get_at (Track.surface tr) ix iy) as [c | []];
    reflexivity.
Qed.

Lemma color_close_within (c ref : rgb) (tol : Z) :
  Track.color_close c ref tol = true <-> within tol c ref.
Proof.
  destruct c as [[r g] b], ref as [[r' g'] b'].
  unfold Track.color_close, within. cbn.
  rewrite !andb_true_iff, !Z.ltb_lt. tauto.
Qed.


(** C8.  A sampled pixel [(r, g, b, a)] is on-track iff its colour is
    within the tolerance of the road colour (100,100,100) or of the
    guide-line colour (255,255,255): every one of the three channels
    differs by strictly less than 30.  So a pixel of colour
    (100,100,100) or (255,255,255) is on-track and one of colour
    (0,200,0) is not. *)
Theorem is_on_track_colour_tolerance
  (tr : Track.t F) (x y : F) (ix iy : Z) (r g b a : Z) :
  py_int x = Ok ix ->
  py_int y = Ok iy ->
  Surface.get_at (Track.surface tr) ix iy = Ok (r, g, b, a) ->
  Track.track_color tr = (100, 100, 100)%Z ->
  exists on : bool,
    Track.is_on_track tr x y = Ok on
    /\ (on = true <->
        (Z.abs (r - 100) < 30 /\ Z.abs (g - 100) < 30
         /\ Z.abs (b - 100) < 30)%Z
        \/ (Z.abs (r - 255) < 30 /\ Z.abs (g - 255) < 30
            /\ Z.abs (b - 255) < 30)%Z)
    /\ ((r, g, b) = (100, 100, 100)%Z -> on = true)
    /\ ((r, g, b) = (255, 255, 255)%Z -> on = true)
    /\ ((r, g, b) = (0, 200, 0)%Z -> on = false).
Proof.
  intros Hx Hy Hc Hroad.
  rewrite (is_on_track_at tr x y Hx Hy), Hc, Hroad.
  cbn [slice3].
  eexists. split; [reflexivity|].
  split; [|repeat split; intros [= -> -> ->]; reflexivity].
  rewrite orb_true_iff, !color_close_within. unfold within, WHITE. tauto.
Qed.
End Sampler.

(** What "real-valued" means for [int()]: every rational, and every
    binary64 number that is neither nan nor an infinity. *)
Lemma py_int_returns_exact (x : Q) : exists z : Z, py_int x = Ok z.
Proof. eexists. reflexivity. Qed.

Lemma py_int_returns_binary64 (x : float) :
  SFfinite (Prim2SF x) -> exists z : Z, py_int x = Ok z.
Proof.
  unfold py_int. cbn [fint binary64]. unfold SFtrunc.
  destruct (Prim2SF x); cbn [SFfinite]; intros Hfin;
    try contradiction; eexists; reflexivity.
Qed.

Section Crossing.
Context {F : Type} `{PyFloat F} {T : Trig F} {R : Raster F}.
Local Open Scope py_scope.

Lemma timer_set_timer (g : Game.t F) (l : Game.laps F) :
  Game.timer (Game.set_timer g l) = l.
Proof. now destruct l. Qed.

(** [Game.update] touches the lap timer only through the body of a
    crossing event, and the speed it tests is the speed it leaves. *)
Lemma update_timer (g g' : Game.t F) (i : Game.input F) :
  Game.update g i = Ok g' ->
  exists crossed : bool,
    Game.timer g'
    = if crossed && (of_Z 0 <? Car.speed (Game.car g'))
      then Game.crossing (Game.timer g) (Game.now i)
      else Game.timer g.
Proof.
  unfold Game.update. intros Hup.
  destruct (Rect.of_floats _ _ _ _) as [car_rect|]; [|discriminate].
  cbn [bind] in Hup.
  destruct (Track.is_on_track _ _ _) as [on|]; [|discriminate].
  cbn [bind] in Hup.
  destruct (Track.check_finish_line_cross _ _ _) as [crossed|];
    [|discriminate].
  cbn [bind] in Hup. exists crossed.
  match type of Hup with
  | context [if crossed && ?b then _ else _] =>
      destruct (crossed && b) eqn:Hfire
  end; injection Hup as <-;
    cbn [Game.car Game.set_prev_car_rect Game.set_timer Game.set_car] in *;
    rewrite Hfire;
    [ change (Game.timer (Game.set_prev_car_rect ?g _)) with (Game.timer g);
      now rewrite timer_set_timer
    | reflexivity ].
Qed.

(** C2.  On a tick where the speed, when the crossing is evaluated, is
    not strictly positive, no crossing event fires: [start_time],
    [lap_time], [best_lap_time] and [laps_completed] are left as they
    were, whether or not the car's rectangle newly overlaps the finish
    line. *)
Theorem no_crossing_event_without_forward_speed
  (g g' : Game.t F) (i : Game.input F) :
  Game.update g i = Ok g' ->
  (of_Z 0 <? Car.speed (Game.car g')) = false ->
  Game.start_time g' = Game.start_time g
  /\ Game.lap_time g' = Game.lap_time g
  /\ Game.best_lap_time g' = Game.best_lap_time g
  /\ Game.laps_completed g' = Game.laps_completed g.
Proof.
  intros Hup Hspeed.
  destruct (update_timer g i Hup) as [crossed Ht].
  rewrite Hspeed, andb_false_r in Ht.
  unfold Game.timer in Ht. now injection Ht.
Qed.
End Crossing.

(** ** The properties above at sample inputs, on binary64 *)

(** At rest, steer-left alone does not turn the car. *)
Lemma heading_invariant_at_rest :
  ((steering_speed (Sample.at_rest float) hold_left =? of_Z 0)%py = true
   \/ (steer_left hold_left = false /\ steer_right hold_left = false))
  /\ Car.angle (Car.update (T := taylor_trig float)
                  (Sample.at_rest float) hold_left)
     = Car.angle (Sample.at_rest float).
Proof.
  assert (Hstill : (steering_speed (Sample.at_rest float) hold_left
                    =? of_Z 0)%py = true
                   \/ (steer_left hold_left = false
                       /\ steer_right hold_left = false))
    by (left; vm_compute; reflexivity).
  split; [exact Hstill|].
  exact (heading_invariant_unless_moving_and_steering
           (T := taylor_trig float) (Sample.at_rest float) hold_left Hstill).
Defined.

(** Pulling away with both steering keys held. *)
Lemma opposite_steering_pulling_away :
  steer_left hold_left_right = true
  /\ steer_right hold_left_right = true
  /\ (steering_speed (Sample.at_rest float) hold_left_right =? of_Z 0)%py
     = false
  /\ Car.angle (Car.update (T := taylor_trig float)
                  (Sample.at_rest float) hold_left_right)
     = Car.angle (Sample.at_rest float).
Proof.
  assert (Hl : steer_left hold_left_right = true) by reflexivity.
  assert (Hr : steer_right hold_left_right = true) by reflexivity.
  assert (Hm : (steering_speed (Sample.at_rest float) hold_left_right
                =? of_Z 0)%py = false) by (vm_compute; reflexivity).
  refine (conj Hl (conj Hr (conj Hm _))).
  destruct (opposite_steering_cancels (T := taylor_trig float)
              (Sample.at_rest float) hold_left_right Hl Hr Hm)
    as [d [_ [_ [_ Hangle]]]].
  exact Hangle.
Defined.

(** Backing onto the finish line: the rectangle newly overlaps it, the
    speed is negative, the timer stays. *)
Lemma no_crossing_event_in_reverse :
  Game.update (T := taylor_trig float) (R := flat_raster float)
    (Sample.reversing float) (Game.tick hold_down_left (of_Z 105))
  = Ok Sample.reversed
  /\ (of_Z 0 <? Car.speed (Game.car Sample.reversed))%py = false
  /\ Rect.colliderect (Rect.make 395 60 10 180)
       (Game.prev_car_rect Sample.reversed) = true
  /\ Rect.colliderect (Rect.make 395 60 10 180)
       (Game.prev_car_rect (Sample.reversing float)) = false
  /\ Game.laps_completed Sample.reversed
     = Game.laps_completed (Sample.reversing float).
Proof.
  assert (Hup : Game.update (T := taylor_trig float) (R := flat_raster float)
                  (Sample.reversing float)
                  (Game.tick hold_down_left (of_Z 105))
                = Ok Sample.reversed) by (vm_compute; reflexivity).
  assert (Hs : (of_Z 0 <? Car.speed (Game.car Sample.reversed))%py = false)
    by (vm_compute; reflexivity).
  refine (conj Hup (conj Hs (conj eq_refl (conj eq_refl _)))).
  apply (no_crossing_event_without_forward_speed _ _ Hup Hs).
Defined.



(** On a plain road the sampled colour is the road colour. *)
Lemma is_on_track_on_the_road :
  py_int (of_Z 400 : float) = Ok 400%Z
  /\ py_int (of_Z 200 : float) = Ok 200%Z
  /\ Surface.get_at (R := flat_raster float)
       (Track.surface (Sample.track float GRAY)) 400 200
     = Ok (100, 100, 100, 255)%Z
  /\ Track.is_on_track (R := flat_raster float)
       (Sample.track float GRAY) (of_Z 400) (of_Z 200) = Ok true.
Proof.
  assert (Hx : py_int (of_Z 400 : float) = Ok 400%Z) by (vm_compute; reflexivity).
  assert (Hy : py_int (of_Z 200 : float) = Ok 200%Z) by (vm_compute; reflexivity).
  assert (Hc : Surface.get_at (R := flat_raster float)
                 (Track.surface (Sample.track float GRAY)) 400 200
               = Ok (100, 100, 100, 255)%Z) by (vm_compute; reflexivity).
  refine (conj Hx (conj Hy (conj Hc _))).
  destruct (is_on_track_colour_tolerance (R := flat_raster float)
              (Sample.track float GRAY) _ _ Hx Hy Hc eq_refl)
    as [on [Hon [_ [Hgray _]]]].
  rewrite Hon. f_equal. apply Hgray. reflexivity.
Defined.

(** ** Throttle, friction and the speed ramp *)

Ltac branches :=
  repeat match goal with
         | |- context [if ?b then _ else _] => destruct b
         end.

Section Longitudinal.
Context {F : Type} `{PyFloat F} {T : Trig F}.

(** [Car.update] writes the position, the heading and the speed only. *)
Lemma tuned_throttle (c : Car.t F) (k : Keys) :
  Car.tuned c -> Car.tuned (Car.throttle c k).
Proof. unfold Car.throttle. intros Htuned. branches; exact Htuned. Qed.

Lemma tuned_steer_left (c : Car.t F) (k : Keys) :
  Car.tuned c -> Car.tuned (Car.steer_left c k).
Proof. unfold Car.steer_left. intros Htuned. destruct (_ && _); exact Htuned. Qed.

Lemma tuned_steer_right (c : Car.t F) (k : Keys) :
  Car.tuned c -> Car.tuned (Car.steer_right c k).
Proof. unfold Car.steer_right. intros Htuned. destruct (_ && _); exact Htuned. Qed.

Lemma tuned_update (c : Car.t F) (k : Keys) :
  Car.tuned c -> Car.tuned (Car.update c k).
Proof.
  intros Htuned. unfold Car.update.
  change (Car.tuned (Car.move ?c)) with (Car.tuned c).
  apply tuned_steer_right, tuned_steer_left.
  change (Car.tuned (Car.clamp_speed ?c)) with (Car.tuned c).
  now apply tuned_throttle.
Qed.

Lemma tuned_penalty (c : Car.t F) (on : bool) :
  Car.tuned c -> Car.tuned (Game.penalty c on).
Proof. unfold Game.penalty. now destruct on. Qed.

Lemma tuned_drive (ks : list Keys) (c : Car.t F) :
  Car.tuned c -> Car.tuned (drive c ks).
Proof.
  revert c. induction ks as [|k ks IH]; intros c Htuned; [exact Htuned|].
  apply IH. now apply tuned_update.
Qed.

(** With accelerate held, the speed after the tick is a function of the
    speed before it. *)
Lemma steering_speed_accelerate (c : Car.t F) (k : Keys) :
  Car.tuned c ->
  accelerate k = true ->
  steering_speed c k = accelerate_step (Car.speed c).
Proof.
  intros (Hmax & Hacc & _) Hk.
  unfold steering_speed, Car.clamp_speed, Car.throttle.
  fold (accelerate k). rewrite Hk.
  cbn [Car.speed Car.set_speed Car.max_speed].
  now rewrite Hmax, Hacc.
Qed.

Lemma speed_drive_accelerate (ks : list Keys) (c : Car.t F) :
  Car.tuned c ->
  Forall (fun k => accelerate k = true) ks ->
  Car.speed (drive c ks)
  = Nat.iter (List.length ks) accelerate_step (Car.speed c).
Proof.
  revert c. induction ks as [|k ks IH]; intros c Htuned Hks; [reflexivity|].
  inversion Hks as [|? ? Hk Hks']; subst.
  change (drive c (k :: ks)) with (drive (Car.update c k) ks).
  rewrite IH by (try apply tuned_update; assumption).
  rewrite speed_update, steering_speed_accelerate by assumption.
  cbn [List.length]. now rewrite Nat.iter_succ_r.
Qed.

(** With no key held, the speed after the tick is decided by the
    friction branch and the clamp. *)
Lemma steering_speed_coasting (c : Car.t F) :
  Car.tuned c ->
  steering_speed c no_keys
  = let s := Car.speed c in
    let s' := if fltb (of_Z 0) s then fsub s (lit 0.05)
              else if fltb s (of_Z 0) then fadd s (lit 0.05)
              else s in
    py_max (py_min s' (of_Z 7)) (fdiv (fneg (of_Z 7)) (of_Z 2)).
Proof.
  intros (Hmax & _ & _ & Hfr & _).
  unfold steering_speed, Car.clamp_speed, Car.throttle. cbn [K_UP K_w K_DOWN K_s no_keys orb].
  branches; cbn [Car.speed Car.set_speed Car.max_speed];
    now rewrite ?Hmax, ?Hfr.
Qed.
End Longitudinal.

(** *** Friction on binary64: the car never comes to rest *)

Lemma creeping_tuned : Car.tuned creeping.
Proof. apply tuned_drive. repeat split. Qed.

Lemma creep_forward_back (c : Car.t float) :
  Car.tuned c -> Car.speed c = creep_forward ->
  steering_speed c no_keys = creep_back.
Proof.
  intros Htuned Hs. rewrite steering_speed_coasting by assumption.
  rewrite Hs. vm_compute. reflexivity.
Qed.

Lemma creep_back_forward (c : Car.t float) :
  Car.tuned c -> Car.speed c = creep_back ->
  steering_speed c no_keys = creep_forward.
Proof.
  intros Htuned Hs. rewrite steering_speed_coasting by assumption.
  rewrite Hs. vm_compute. reflexivity.
Qed.

Lemma creep_forever (T : Trig float) (n : nat) (c : Car.t float) :
  Car.tuned c -> Car.speed c = creep_forward ->
  Car.speed (drive c (coasting (2 * n))) = creep_forward
  /\ Car.speed (drive c (coasting (2 * n + 1))) = creep_back.
Proof.
  revert c. induction n as [|n IH]; intros c Htuned Hs.
  - split; [exact Hs|].
    change (drive c (coasting (2 * 0 + 1))) with (Car.update c no_keys).
    rewrite speed_update. now apply creep_forward_back.
  - replace (2 * S n)%nat with (S (S (2 * n))) by lia.
    replace (S (S (2 * n)) + 1)%nat with (S (S (2 * n + 1))) by lia.
    cbn [coasting repeat].
    change (drive c (no_keys :: no_keys :: ?ks))
      with (drive (Car.update (Car.update c no_keys) no_keys) ks).
    apply IH.
    + now do 2 apply tuned_update.
    + rewrite speed_update.
      apply creep_back_forward; [now apply tuned_update|].
      rewrite speed_update. now apply creep_forward_back.
Qed.

(** C4.  With neither accelerate nor brake held the speed does overshoot
    zero.  On binary64: one tick of throttle from rest, then coasting;
    after two ticks the speed is positive and less than one friction
    step; the next tick makes it negative, not zero, the one after
    positive again, and so on for ever.  In exact arithmetic: from
    speed 0.03 one tick of friction gives -0.02. *)
Theorem friction_overshoots_zero :
  (fltb (of_Z 0) creep_forward = true
   /\ fltb creep_forward (lit 0.05) = true
   /\ fltb creep_back (of_Z 0) = true
   /\ forall n : nat,
       Car.speed (drive (T := taylor_trig float) creeping (coasting (2 * n)))
       = creep_forward
       /\ Car.speed (drive (T := taylor_trig float) creeping
                       (coasting (2 * n + 1)))
          = creep_back)
  /\ Car.speed (Car.update (T := taylor_trig Q)
                  (Car.set_speed (Sample.at_rest Q) 0.03) no_keys)
     == - 0.02.
Proof.
  split; [|vm_compute; reflexivity].
  split; [vm_compute; reflexivity|].
  split; [vm_compute; reflexivity|].
  split; [vm_compute; reflexivity|].
  intros n. apply creep_forever.
  - exact creeping_tuned.
  - vm_compute. reflexivity.
Qed.

(** *** The speed ramp under full throttle *)

Lemma lit_exact (q : Q) : lit (F := Q) q == q.
Proof. destruct q as [a b]. unfold lit. cbn. symmetry. apply Qmake_Qdiv. Qed.

Lemma Qltb_true (a b : Q) : Qltb a b = true <-> a < b.
Proof.
  unfold Qltb. rewrite negb_true_iff.
  split.
  - intros Hle. apply Qnot_le_lt. intros Hba.
    apply Qle_bool_iff in Hba. congruence.
  - intros Hlt. destruct (Qle_bool b a) eqn:E; [|reflexivity].
    apply Qle_bool_iff in E. apply Qlt_not_le in Hlt. contradiction.
Qed.

Lemma Qltb_false (a b : Q) : Qltb a b = false <-> b <= a.
Proof.
  unfold Qltb. rewrite negb_false_iff. apply Qle_bool_iff.
Qed.

(** The clamp of line 86 in exact arithmetic. *)
Lemma clamp_exact (a : Q) :
  py_max (py_min a (of_Z 7)) (fdiv (fneg (of_Z 7)) (of_Z 2))
  == Qmax (Qmin a 7) (- (7 # 2)).
Proof.
  unfold py_max, py_min. cbn [fltb fdiv fneg of_Z exact].
  change (- inject_Z 7 / inject_Z 2) with (- (7 # 1) / (2 # 1)).
  change (inject_Z 7) with 7.
  assert (Hlow : - (7 # 1) / (2 # 1) == - (7 # 2)) by reflexivity.
  destruct (Qltb 7 a) eqn:E1.
  - apply Qltb_true in E1.
    destruct (Qltb 7 (- (7 # 1) / (2 # 1))) eqn:E2.
    + apply Qltb_true in E2. rewrite Hlow in E2. discriminate.
    + rewrite Q.min_r by lra. rewrite Q.max_l by lra. reflexivity.
  - apply Qltb_false in E1. rewrite Q.min_l by lra.
    destruct (Qltb a (- (7 # 1) / (2 # 1))) eqn:E2.
    + apply Qltb_true in E2. rewrite Hlow in E2.
      rewrite Q.max_r by lra. exact Hlow.
    + apply Qltb_false in E2. rewrite Hlow in E2.
      rewrite Q.max_l by lra. reflexivity.
Qed.

Lemma accelerate_step_exact (s : Q) (n : nat) :
  s == Qmin (0.15 * inject_Z (Z.of_nat n)) 7 ->
  accelerate_step s == Qmin (0.15 * inject_Z (Z.of_nat (S n))) 7.
Proof.
  intros Hs. unfold accelerate_step. rewrite clamp_exact.
  cbn [fadd exact]. rewrite lit_exact.
  rewrite Nat2Z.inj_succ. unfold Z.succ. rewrite inject_Z_plus.
  assert (Hn : 0 <= inject_Z (Z.of_nat n)).
  { change 0 with (inject_Z 0). rewrite <- Zle_Qle. lia. }
  set (m := inject_Z (Z.of_nat n)) in *. clearbody m.
  change (inject_Z 1) with 1.
  destruct (Q.min_spec (0.15 * m) 7) as [[Hlt Hmin] | [Hle Hmin]];
    rewrite Hmin in Hs;
    destruct (Q.min_spec (0.15 * (m + 1)) 7) as [[Hlt' Hmin'] | [Hle' Hmin']];
    rewrite Hmin';
    destruct (Q.min_spec (s + 0.15) 7) as [[Hlt2 Hmin2] | [Hle2 Hmin2]];
    rewrite Hmin2;
    (rewrite Q.max_l by lra); lra.
Qed.

Lemma iter_accelerate_exact (n : nat) (s : Q) :
  s == 0 ->
  Nat.iter n accelerate_step s == Qmin (0.15 * inject_Z (Z.of_nat n)) 7.
Proof.
  intros Hs. induction n as [|n IH].
  - change (Nat.iter 0 accelerate_step s) with s. rewrite Hs. reflexivity.
  - rewrite Nat.iter_succ. now apply accelerate_step_exact.
Qed.

(** On binary64 the ramp reaches 7 at tick 47 and stays there. *)
Lemma iter_accelerate_top (n : nat) :
  (47 <= n)%nat ->
  Nat.iter n (accelerate_step (F := float)) (of_Z 0) = of_Z 7.
Proof.
  intros Hn. replace n with ((n - 47) + 47)%nat by lia.
  rewrite Nat.iter_add.
  replace (Nat.iter 47 accelerate_step (of_Z 0 : float)) with (of_Z 7 : float)
    by (vm_compute; reflexivity).
  induction (n - 47)%nat as [|m IH]; [reflexivity|].
  rewrite Nat.iter_succ, IH. vm_compute. reflexivity.
Qed.

Lemma iter_accelerate_near (n : nat) :
  near_ramp (1 # 100000000000000) n
    (Nat.iter n (accelerate_step (F := float)) (of_Z 0)) = true.
Proof.
  destruct (Nat.lt_ge_cases n 47) as [Hlt | Hge].
  - assert (Hall : forallb
                     (fun n => near_ramp (1 # 100000000000000) n
                                 (Nat.iter n (accelerate_step (F := float))
                                    (of_Z 0)))
                     (seq 0 47) = true) by (vm_compute; reflexivity).
    rewrite forallb_forall in Hall. apply Hall.
    apply in_seq. lia.
  - rewrite iter_accelerate_top by assumption.
    unfold near_ramp.
    replace (float_value (of_Z 7))
      with (Some (7881299347898368 # 1125899906842624))
      by (vm_compute; reflexivity).
    apply Qle_bool_iff.
    assert (Hn : 47 <= inject_Z (Z.of_nat n)).
    { change 47 with (inject_Z 47). rewrite <- Zle_Qle. lia. }
    rewrite Q.min_r by lra.
    assert (H7 : (7881299347898368 # 1125899906842624) - 7 == 0) by reflexivity.
    rewrite H7. discriminate.
Qed.

(** C7, as stated, on binary64: after six ticks of full throttle the
    speed is not [min(0.15 * 6, 7)]; six rounded additions of 0.15 and
    one rounded product differ in the last place. *)
Lemma linear_ramp_fails_on_binary64 :
  ~ linear_ramp (T := taylor_trig float) float 6.
Proof. unfold linear_ramp. vm_compute. discriminate. Qed.

Lemma py_min_exact (a b : Q) : py_min a b == Qmin a b.
Proof.
  unfold py_min. cbn [fltb exact].
  destruct (Qltb b a) eqn:E.
  - apply Qltb_true in E. rewrite Q.min_r by lra. reflexivity.
  - apply Qltb_false in E. rewrite Q.min_l by lra. reflexivity.
Qed.

Lemma full_throttle_accelerates (n : nat) :
  Forall (fun k => accelerate k = true) (full_throttle n).
Proof.
  apply Forall_forall. intros k Hk. apply repeat_spec in Hk. now subst k.
Qed.

Lemma length_full_throttle (n : nat) : List.length (full_throttle n) = n.
Proof. apply repeat_length. Qed.

(** C7, amended.  From rest, with accelerate held on every tick and no
    off-track penalty, the speed after N ticks is [min(0.15 * N, 7)] in
    exact arithmetic; on binary64 it is within 1e-14 of that value, and
    it is exactly 7 from tick 47 on. *)
Theorem linear_ramp_up_to_rounding :
  (forall (T : Trig Q) (c : Car.t Q) (ks : list Keys),
      Car.tuned c ->
      Car.speed c == 0 ->
      Forall (fun k => accelerate k = true) ks ->
      Car.speed (drive c ks)
      == Qmin (0.15 * inject_Z (Z.of_nat (List.length ks))) 7)
  /\ (forall (T : Trig Q) (n : nat), linear_ramp Q n)
  /\ (forall (T : Trig float) (c : Car.t float) (ks : list Keys),
         Car.tuned c ->
         Car.speed c = of_Z 0 ->
         Forall (fun k => accelerate k = true) ks ->
         near_ramp (1 # 100000000000000) (List.length ks)
           (Car.speed (drive c ks)) = true
         /\ ((47 <= List.length ks)%nat ->
             Car.speed (drive c ks) = of_Z 7)).
Proof.
  assert (Hexact : forall (T : Trig Q) (c : Car.t Q) (ks : list Keys),
             Car.tuned c ->
             Car.speed c == 0 ->
             Forall (fun k => accelerate k = true) ks ->
             Car.speed (drive c ks)
             == Qmin (0.15 * inject_Z (Z.of_nat (List.length ks))) 7).
  { intros T c ks Htuned Hs Hks.
    rewrite speed_drive_accelerate by assumption.
    now apply iter_accelerate_exact. }
  split; [exact Hexact|]. split.
  - intros T n. unfold linear_ramp. apply Qeq_bool_iff.
    rewrite Hexact;
      [|repeat split | reflexivity | apply full_throttle_accelerates].
    rewrite length_full_throttle, py_min_exact.
    cbn [fmul exact of_Z]. rewrite lit_exact. reflexivity.
  - intros T c ks Htuned Hs Hks.
    rewrite speed_drive_accelerate, Hs by assumption.
    split.
    + apply iter_accelerate_near.
    + apply iter_accelerate_top.
Qed.

(** Fifty ticks of full throttle from rest, in both arithmetics. *)
Lemma linear_ramp_fifty_ticks :
  Car.speed (drive (T := taylor_trig Q) (Sample.at_rest Q) (full_throttle 50))
  == 7
  /\ Car.speed (drive (T := taylor_trig float) (Sample.at_rest float)
                  (full_throttle 50))
     = of_Z 7.
Proof.
  split.
  - rewrite (proj1 linear_ramp_up_to_rounding (taylor_trig Q)
               (Sample.at_rest Q) (full_throttle 50)).
    + reflexivity.
    + repeat split.
    + reflexivity.
    + apply full_throttle_accelerates.
  - apply (proj2 (proj2 linear_ramp_up_to_rounding) (taylor_trig float)
             (Sample.at_rest float) (full_throttle 50)).
    + repeat split.
    + reflexivity.
    + apply full_throttle_accelerates.
    + vm_compute. lia.
Defined.

(** ** Track construction and zero-length segments *)

Section Geometry.
Context {F : Type} `{PyFloat F}.
Variable hypot : F -> F -> F.
Hypothesis one_nonzero : feqb (of_Z 1) (of_Z 0) = false.
Hypothesis two_nonzero : feqb (of_Z 2) (of_Z 0) = false.

(** The length used in [_draw_track], [hypot(dx, dy) or 1], is never
    zero. *)
Lemma guarded_length_nonzero (dx dy : F) :
  feqb (py_or (hypot dx dy) (of_Z 1)) (of_Z 0) = false.
Proof.
  unfold py_or, truthy.
  destruct (feqb (hypot dx dy) (of_Z 0)) eqn:E; cbn [negb].
  - exact one_nonzero.
  - exact E.
Qed.

(** The boundary offsets of a segment never raise, whatever its length. *)
Lemma offsets_never_raise (self : Track.t F) (seg : (F * F) * (F * F)) :
  exists lr, Track.offsets hypot self seg = Ok lr.
Proof.
  destruct seg as [[cx cy] [nx ny]]. unfold Track.offsets, py_div.
  rewrite guarded_length_nonzero, two_nonzero. cbn [bind].
  eexists. reflexivity.
Qed.

Lemma offsets_loop_never_raises (self : Track.t F)
  (segs : list ((F * F) * (F * F))) :
  exists lr, Track.offsets_loop hypot self segs = Ok lr.
Proof.
  induction segs as [|seg segs [[l r] IH]].
  - eexists. reflexivity.
  - destruct (offsets_never_raise self seg) as [[a b] Hseg].
    cbn [Track.offsets_loop]. rewrite Hseg, IH. cbn [bind].
    eexists. reflexivity.
Qed.

(** The dashed guide line has no such guard: on a segment that [hypot]
    measures as zero, the first division by the length raises. *)
Lemma dashed_line_raises_on_zero_length
  (surf : Surface.t F) (color : rgb) (x1 y1 x2 y2 : F)
  (dash_length space_length width count : Z) :
  feqb (hypot (fsub x2 x1) (fsub y2 y1)) (of_Z 0) = true ->
  feqb (of_Z (dash_length + space_length)) (of_Z 0) = false ->
  py_int (fdiv (hypot (fsub x2 x1) (fsub y2 y1))
               (of_Z (dash_length + space_length))) = Ok count ->
  Track._draw_dashed_line hypot surf color (x1, y1) (x2, y2)
    dash_length space_length width
  = Raise ZeroDivisionError.
Proof.
  intros Hzero Hstep Hcount.
  unfold Track._draw_dashed_line, py_div.
  rewrite Hstep. cbn [bind]. rewrite Hcount. cbn [bind].
  rewrite Hzero. reflexivity.
Qed.
End Geometry.

(** C5.  Track construction on a centre line with a zero-length
    segment, on binary64: the boundary offsets of the degenerate segment
    are computed (its length is replaced by 1), but the dashed guide
    line divides by the length as it is and raises
    [ZeroDivisionError]; so do [_draw_track] and [Track.__init__]. *)
Theorem degenerate_segment_raises_in_the_guide_line :
  is_ok (Track.offsets hypot64 (Track.fresh Sample.degenerate_path)
           ((of_Z 400, of_Z 150), (of_Z 400, of_Z 150))) = true
  /\ is_ok (Track.offsets_loop hypot64 (Track.fresh Sample.degenerate_path)
              (Track.consecutive Sample.degenerate_path)) = true
  /\ Track._draw_dashed_line hypot64
       (Track.surface (Track.fresh Sample.degenerate_path)) WHITE
       (of_Z 400, of_Z 150) (of_Z 400, of_Z 150) 15 10 3
     = Raise ZeroDivisionError
  /\ Track._draw_track hypot64 (Track.fresh Sample.degenerate_path)
     = Raise ZeroDivisionError
  /\ Track.init_with hypot64 Sample.degenerate_path
     = Raise ZeroDivisionError.
Proof.
  split; [vm_compute; reflexivity|].
  split; [vm_compute; reflexivity|].
  split.
  - apply dashed_line_raises_on_zero_length with (count := 0%Z);
      vm_compute; reflexivity.
  - split; vm_compute; reflexivity.
Qed.

(** With the centre line of the source no segment of the guide line is
    degenerate, and construction stops later: [_draw_track] reads
    [finish_line_color] and [finish_line], which [__init__] assigns only
    after the call. *)
Lemma track_init_raises_AttributeError :
  Track.init hypot64 = Raise AttributeError
  /\ Game.init hypot64 = Raise AttributeError.
Proof. split; vm_compute; reflexivity. Qed.

(** ** Lap records *)

(** C3.  Crossing events at clock readings 10, 10 and 15 record laps of
    duration 0 and 5.  The zero best lap is taken for no best lap by
    [self.best_lap_time or lap], and the next lap replaces it: the best
    lap ends as 5, not as the least recorded duration, 0 (on binary64
    and in exact arithmetic alike). *)
Theorem best_lap_forgets_a_zero_lap :
  Game.l_best_lap_time
    (crossings [of_Z 10; of_Z 10; of_Z 15] (not_started (F := float)))
  = Some (of_Z 5)
  /\ durations (F := float) (of_Z 10) [of_Z 10; of_Z 15] = [of_Z 0; of_Z 5]
  /\ ~ best_lap_is_minimum (F := float) (of_Z 10) [of_Z 10; of_Z 15]
  /\ ~ best_lap_is_minimum (F := Q) 10 [10; 15].
Proof.
  split; [vm_compute; reflexivity|].
  split; [vm_compute; reflexivity|].
  split.
  - intros (best & Hbest & _ & _ & Hmin).
    vm_compute in Hbest. injection Hbest as <-.
    specialize (Hmin (of_Z 0) (or_introl eq_refl)).
    vm_compute in Hmin. discriminate.
  - intros (best & Hbest & _ & _ & Hmin).
    vm_compute in Hbest. injection Hbest as <-.
    specialize (Hmin (10 - 10) (or_introl eq_refl)).
    vm_compute in Hmin. discriminate.
Qed.

Lemma Qeqb_true (a b : Q) : feqb a b = true <-> a == b.
Proof. apply Qeq_bool_iff. Qed.

Lemma minimum_of_single (d : Q) : minimum_of d [d].
Proof.
  split.
  - exists d. split; [now left|]. now apply Qeqb_true.
  - intros d' [<- | []]. apply Qltb_false. apply Qle_refl.
Qed.

Lemma minimum_of_snoc_new (b d : Q) (ds : list Q) :
  minimum_of b ds -> d < b -> minimum_of d (ds ++ [d]).
Proof.
  intros [_ Hle] Hlt. split.
  - exists d. split; [apply in_or_app; right; now left|].
    now apply Qeqb_true.
  - intros d' Hin. apply Qltb_false.
    apply in_app_or in Hin as [Hin | [<- | []]]; [|apply Qle_refl].
    specialize (Hle d' Hin). apply Qltb_false in Hle. lra.
Qed.

Lemma minimum_of_snoc_old (b d : Q) (ds : list Q) :
  minimum_of b ds -> b <= d -> minimum_of b (ds ++ [d]).
Proof.
  intros [(d0 & Hin0 & Heq) Hle] Hbd. split.
  - exists d0. split; [apply in_or_app; now left | exact Heq].
  - intros d' Hin. apply Qltb_false.
    apply in_app_or in Hin as [Hin | [<- | []]]; [|exact Hbd].
    specialize (Hle d' Hin). now apply Qltb_false in Hle.
Qed.

Lemma minimum_of_nonzero (b : Q) (ds : list Q) :
  minimum_of b ds -> Forall nonzero ds -> nonzero b.
Proof.
  intros [(d & Hin & Heq) _] Hall Hb.
  rewrite Forall_forall in Hall. apply (Hall d Hin).
  apply Qeqb_true in Heq. now rewrite <- Heq.
Qed.

(** One crossing event keeps the invariant. *)
Lemma crossing_keeps_inv (l : Game.laps Q) (start now : Q) (ds : list Q) :
  Game.l_start_time l = Some start ->
  lap_inv l ds ->
  lap_inv (Game.crossing l now) (ds ++ [now - start])
  /\ Game.l_start_time (Game.crossing l now) = Some now.
Proof.
  intros Hstart Hinv. unfold Game.crossing. rewrite Hstart.
  split; [|reflexivity].
  unfold lap_inv in *.
  cbn [Game.l_best_lap_time Game.l_lap_time fsub exact].
  set (lap := now - start).
  split; [now destruct ds|].
  destruct (Game.l_best_lap_time l) as [b|].
  - destruct Hinv as (Hne & Hlast & Hmin).
    unfold Game.best_or, py_or, truthy, py_min.
    destruct (feqb b (of_Z 0)) eqn:Hzero; cbn [negb].
    + (* the best lap was zero: it is dropped *)
      replace (fltb lap lap) with false
        by (symmetry; apply Qltb_false; apply Qle_refl).
      split; [apply Qle_refl|].
      intros Hall. apply Forall_app in Hall as [Hall _].
      exfalso. apply (minimum_of_nonzero (Hmin Hall) Hall).
      now apply Qeqb_true in Hzero.
    + destruct (fltb lap b) eqn:Hlt.
      * apply Qltb_true in Hlt. split; [apply Qle_refl|].
        intros Hall. apply Forall_app in Hall as [Hall _].
        now apply minimum_of_snoc_new with (b := b); [apply Hmin|].
      * apply Qltb_false in Hlt. split; [exact Hlt|].
        intros Hall. apply Forall_app in Hall as [Hall _].
        now apply minimum_of_snoc_old; [apply Hmin|].
  - subst ds. unfold Game.best_or, py_min.
    replace (fltb lap lap) with false
      by (symmetry; apply Qltb_false; apply Qle_refl).
    split; [apply Qle_refl|].
    intros _. apply minimum_of_single.
Qed.

Lemma crossings_keep_inv (ts : list Q) :
  forall (l : Game.laps Q) (start : Q) (ds : list Q),
    Game.l_start_time l = Some start ->
    lap_inv l ds ->
    lap_inv (crossings ts l) (ds ++ durations start ts).
Proof.
  induction ts as [|t ts IH]; intros l start ds Hstart Hinv.
  - cbn. now rewrite app_nil_r.
  - destruct (@crossing_keeps_inv l start t ds Hstart Hinv) as [Hinv' Hstart'].
    cbn [crossings fold_left durations].
    replace (ds ++ fsub t start :: durations t ts)
      with ((ds ++ [t - start]) ++ durations t ts)
      by (now rewrite <- app_assoc).
    now apply IH.
Qed.

(** X17.  What does hold of the best lap, in exact arithmetic: once a
    lap has been recorded, [best_lap_time] is at most the last lap time; and if
    no recorded lap has duration exactly zero, it is the least of the
    lap durations recorded so far (each the difference of the clock
    readings of two consecutive crossing events). *)
Theorem best_lap_is_minimum_of_nonzero_laps (t0 : Q) (ts : list Q) :
  ts <> [] ->
  (exists best,
      Game.l_best_lap_time (crossings (t0 :: ts) not_started) = Some best
      /\ best <= Game.l_lap_time (crossings (t0 :: ts) not_started))
  /\ (Forall nonzero (durations t0 ts) -> best_lap_is_minimum t0 ts).
Proof.
  intros Hts.
  assert (Hinv : lap_inv (crossings (t0 :: ts) not_started)
                   ([] ++ durations t0 ts)).
  { change (crossings (t0 :: ts) not_started)
      with (crossings ts (Game.crossing not_started t0)).
    apply crossings_keep_inv; reflexivity. }
  cbn [app] in Hinv. unfold best_lap_is_minimum, lap_inv in *.
  destruct (Game.l_best_lap_time (crossings (t0 :: ts) not_started))
    as [best|].
  - destruct Hinv as (_ & Hlast & Hmin). split.
    + now exists best.
    + intros Hall. exists best. split; [reflexivity|].
      split; [now apply Qltb_false | now apply Hmin].
  - destruct ts; [congruence | discriminate].
Qed.

(** Crossings at 10, 12 and 15: laps of 2 and 3, best lap 2. *)
Lemma best_lap_of_two_laps :
  [12; 15] <> []
  /\ Forall nonzero (durations 10 [12; 15])
  /\ best_lap_is_minimum (F := Q) 10 [12; 15].
Proof.
  assert (Hts : [12; 15] <> ([] : list Q)) by discriminate.
  assert (Hall : Forall nonzero (durations 10 [12; 15]))
    by (repeat constructor; discriminate).
  refine (conj Hts (conj Hall _)).
  exact (proj2 (best_lap_is_minimum_of_nonzero_laps 10 Hts) Hall).
Defined.

(** ** The wall clamp in exact arithmetic *)

(** Lines 100-101. *)
Lemma wall_clamp_exact (a : Q) (W : Z) :
  (0 <= W)%Z ->
  0 <= py_max (of_Z 0) (py_min (of_Z W) a)
  /\ py_max (of_Z 0) (py_min (of_Z W) a) <= inject_Z W.
Proof.
  intros HW.
  assert (HWq : 0 <= inject_Z W).
  { change 0 with (inject_Z 0). now rewrite <- Zle_Qle. }
  unfold py_max, py_min. cbn [fltb of_Z exact].
  change (inject_Z 0) with 0.
  destruct (Qltb a (inject_Z W)) eqn:Ea.
  - apply Qltb_true in Ea.
    destruct (Qltb 0 a) eqn:E0.
    + apply Qltb_true in E0. split; lra.
    + split; lra.
  - destruct (Qltb 0 (inject_Z W)) eqn:E0.
    + split; lra.
    + split; lra.
Qed.

Lemma update_in_field {T : Trig Q} (c : Car.t Q) (k : Keys) :
  in_field (Car.x (Car.update c k)) (Car.y (Car.update c k)).
Proof.
  unfold Car.update, Car.move, in_field.
  cbn [Car.x Car.y Car.set_xy].
  split; [|split; [|split]]; apply wall_clamp_exact; discriminate.
Qed.

(** [int()] of a coordinate between the walls. *)
Lemma py_int_between (q : Q) (W : Z) :
  0 <= q -> q <= inject_Z W ->
  exists z : Z, py_int q = Ok z /\ (0 <= z <= W)%Z.
Proof.
  intros H0 HW. exists (Z.quot (Qnum q) (Zpos (Qden q))).
  split; [reflexivity|].
  unfold Qle in H0, HW. cbn in H0, HW.
  rewrite Z.quot_div_nonneg by lia. split.
  - apply Z.div_pos; lia.
  - apply Z.div_le_upper_bound; lia.
Qed.

(** ** The speed range *)

Section SpeedRange.
Context {T : Trig Q} {R : Raster Q}.

Lemma clamp_in_range (a : Q) :
  in_range (py_max (py_min a (of_Z 7)) (fdiv (fneg (of_Z 7)) (of_Z 2))).
Proof.
  unfold in_range. rewrite clamp_exact.
  destruct (Q.max_spec (Qmin a 7) (- (7 # 2))) as [[Hlt ->] | [Hle ->]];
    destruct (Q.min_spec a 7) as [[Hlt' Hmin] | [Hle' Hmin]];
    rewrite ?Hmin in *; lra.
Qed.

(** Line 86 leaves the speed in range, whatever it was. *)
Lemma steering_speed_in_range (c : Car.t Q) (k : Keys) :
  Car.tuned c -> in_range (steering_speed c k).
Proof.
  intros Htuned.
  assert (Hmax : Car.max_speed (Car.throttle c k) = of_Z 7).
  { apply tuned_throttle. exact Htuned. }
  unfold steering_speed, Car.clamp_speed.
  cbn [Car.speed Car.set_speed]. rewrite Hmax.
  apply clamp_in_range.
Qed.

(** The off-track penalty keeps an in-range speed in range. *)
Lemma penalty_in_range (c : Car.t Q) (on : bool) :
  in_range (Car.speed c) -> in_range (Car.speed (Game.penalty c on)).
Proof.
  unfold Game.penalty, in_range. intros [Hlo Hhi].
  destruct on; cbn [negb]; [now split|].
  cbn [Car.speed Car.set_speed fmul exact]. rewrite lit_exact. lra.
Qed.

(** In exact arithmetic [int()] accepts every number, and between the
    walls the integer parts fit a C int: the sampler returns. *)
Lemma is_on_track_returns (tr : Track.t Q) (x y : Q) :
  in_field x y -> exists b : bool, Track.is_on_track tr x y = Ok b.
Proof.
  intros (Hx0 & HxW & Hy0 & HyH).
  destruct (py_int_between Hx0 HxW) as (ix & Hix & Hxb).
  destruct (py_int_between Hy0 HyH) as (iy & Hiy & Hyb).
  rewrite (@is_on_track_at Q exact R tr x y ix iy Hix Hiy).
  rewrite get_at_in_c_int
    by (eapply c_int_in_field; [eassumption | discriminate]).
  destruct (_ && _); eexists; reflexivity.
Qed.

(** One tick in exact arithmetic, on a track whose finish line is set:
    [Game.update] returns, and the car it leaves is the car of
    [Car.update] after the off-track penalty. *)
Lemma update_returns (g : Game.t Q) (i : Game.input Q) :
  Track.finish_line (Game.track g) <> None ->
  exists (g' : Game.t Q) (on : bool),
    Game.update g i = Ok g'
    /\ Game.track g' = Game.track g
    /\ Game.car g' = Game.penalty (Car.update (Game.car g) (Game.keys i)) on.
Proof.
  intros Hfl. unfold Game.update.
  unfold Rect.of_floats. cbn [py_int fint exact Qtrunc bind].
  cbn [Game.car Game.set_car Game.track].
  destruct (is_on_track_returns (Game.track g)
              (update_in_field (Game.car g) (Game.keys i))) as [on Hon].
  rewrite Hon. cbn [bind].
  unfold Track.check_finish_line_cross.
  destruct (Track.finish_line (Game.track g)) as [fl|]; [|congruence].
  cbn [Track.getattr bind].
  destruct (Rect.colliderect fl _); cbn [bind];
    [destruct (negb _ && _) | ]; eexists; exists on; repeat split.
Qed.

Lemma run_in_range (inputs : list (Game.input Q)) :
  forall g : Game.t Q,
    Car.tuned (Game.car g) ->
    Track.finish_line (Game.track g) <> None ->
    exists states : list (Game.t Q),
      Game.run g inputs = Ok states
      /\ List.length states = List.length inputs
      /\ Forall (fun g' => in_range (Car.speed (Game.car g'))) states.
Proof.
  induction inputs as [|i inputs IH]; intros g Htuned Hfl.
  - exists []. repeat split. constructor.
  - destruct (update_returns g i Hfl) as (g' & on & Hup & Htrack & Hcar).
    assert (Htuned' : Car.tuned (Game.car g')).
    { rewrite Hcar. now apply tuned_penalty, tuned_update. }
    assert (Hfl' : Track.finish_line (Game.track g') <> None)
      by now rewrite Htrack.
    destruct (IH g' Htuned' Hfl') as (states & Hrun & Hlen & Hall).
    exists (g' :: states). cbn [Game.run]. rewrite Hup. cbn [bind].
    rewrite Hrun. cbn [bind]. split; [reflexivity|].
    split; [cbn; now rewrite Hlen|].
    constructor; [|exact Hall].
    rewrite Hcar. apply penalty_in_range.
    rewrite speed_update. now apply steering_speed_in_range.
Qed.
End SpeedRange.

(** ** The speed range on binary64 *)

Section Binary64.
Local Open Scope Z_scope.

Lemma digits2_pos_size (p : positive) : digits2_pos p = Pos.size p.
Proof. induction p; cbn; congruence. Qed.

Lemma digits2_pos_bounds (p : positive) :
  2 ^ (Zpos (digits2_pos p) - 1) <= Zpos p < 2 ^ Zpos (digits2_pos p).
Proof.
  rewrite digits2_pos_size. split.
  - pose proof (Pos.size_le p) as Hle.
    assert (H2 : 2 ^ Zpos (Pos.size p) <= Zpos p~0).
    { rewrite <- Pos2Z.inj_pow. exact Hle. }
    replace (Zpos (Pos.size p)) with (Z.succ (Zpos (Pos.size p) - 1)) in H2 by lia.
    rewrite Z.pow_succ_r in H2 by lia. lia.
  - pose proof (Pos.size_gt p) as Hgt.
    rewrite <- Pos2Z.inj_pow. exact Hgt.
Qed.

Lemma digits2_pos_unique (p : positive) (k : Z) :
  2 ^ (k - 1) <= Zpos p < 2 ^ k -> Zpos (digits2_pos p) = k.
Proof.
  intros [Hlo Hhi]. pose proof (digits2_pos_bounds p) as [Hlo' Hhi'].
  assert (Hk : 0 < k).
  { destruct (Z.lt_ge_cases 0 k) as [|Hk]; [assumption|].
    destruct (Z.eq_dec k 0) as [->|]; [cbn in Hhi; lia|].
    rewrite (Z.pow_neg_r 2 k) in Hhi by lia. lia. }
  set (d := Zpos (digits2_pos p)) in *.
  destruct (Z.lt_trichotomy d k) as [Hlt | [Heq | Hgt]]; [|assumption|].
  - assert (2 ^ d <= 2 ^ (k - 1)) by (apply Z.pow_le_mono_r; lia). lia.
  - assert (2 ^ k <= 2 ^ (d - 1)) by (apply Z.pow_le_mono_r; lia). lia.
Qed.

Lemma shr_1_m (mrs : shr_record) :
  0 <= shr_m mrs -> shr_m (shr_1 mrs) = shr_m mrs / 2.
Proof.
  destruct mrs as [m r s]. cbn [shr_m]. intros Hm.
  rewrite <- Z.div2_div.
  destruct m as [|[p|p|]|p]; try reflexivity. lia.
Qed.

Lemma pow2_xO (p : positive) : 2 ^ Zpos p~0 = 2 ^ Zpos p * 2 ^ Zpos p.
Proof. rewrite <- Z.pow_add_r by lia. f_equal. lia. Qed.

Lemma pow2_xI (p : positive) : 2 ^ Zpos p~1 = 2 * (2 ^ Zpos p * 2 ^ Zpos p).
Proof.
  rewrite <- Z.pow_add_r by lia.
  replace (Zpos p~1) with (Z.succ (Zpos p + Zpos p)) by lia.
  now rewrite Z.pow_succ_r by lia.
Qed.

Lemma iter_shr_1_m (p : positive) :
  forall mrs, 0 <= shr_m mrs ->
    shr_m (iter_pos shr_1 p mrs) = shr_m mrs / 2 ^ Zpos p.
Proof.
  induction p as [p IH | p IH |]; intros mrs Hm; cbn [iter_pos].
  - assert (H1 : 0 <= shr_m (shr_1 mrs)).
    { rewrite shr_1_m by assumption. apply Z.div_pos; lia. }
    assert (H2 : 0 <= shr_m (iter_pos shr_1 p (shr_1 mrs))).
    { rewrite IH by assumption. apply Z.div_pos; lia. }
    rewrite IH, IH, shr_1_m by assumption.
    rewrite !Z.div_div by lia. now rewrite pow2_xI, Z.mul_assoc.
  - assert (H2 : 0 <= shr_m (iter_pos shr_1 p mrs)).
    { rewrite IH by assumption. apply Z.div_pos; lia. }
    rewrite IH, IH by assumption.
    rewrite !Z.div_div by lia. now rewrite pow2_xO.
  - rewrite shr_1_m by assumption. reflexivity.
Qed.

Lemma fexp64_eq (z : Z) : fexp64 z = Z.max (z - 53) (-1074).
Proof. reflexivity. Qed.

Lemma round_nearest_even_bounds (q : Z) (l : location) :
  q <= round_nearest_even q l <= q + 1.
Proof.
  destruct l as [|[]]; cbn [round_nearest_even]; try lia.
  destruct (Z.even q); lia.
Qed.

(** Rounding a positive integer mantissa at a positive shift. *)
Lemma binary_round_aux_shift (sx : bool) (M : positive) (E : Z) (n : positive) :
  fexp64 (Zpos (digits2_pos M) + E) - E = Zpos n ->
  exists m1 : Z,
    Zpos M / 2 ^ Zpos n <= m1 <= Zpos M / 2 ^ Zpos n + 1
    /\ binary_round_aux prec emax sx (Zpos M) E loc_Exact
       = finish sx m1 (E + Zpos n).
Proof.
  intros Hn. unfold binary_round_aux, shr_fexp at 1.
  cbn [Zdigits2]. rewrite Hn. cbn [shr shr_record_of_loc].
  set (mrs := iter_pos shr_1 n _).
  exists (round_nearest_even (shr_m mrs) (loc_of_shr_record mrs)).
  split; [|reflexivity].
  replace (Zpos M / 2 ^ Zpos n) with (shr_m mrs).
  - apply round_nearest_even_bounds.
  - unfold mrs. rewrite iter_shr_1_m; cbn [shr_m]; [reflexivity|lia].
Qed.

Lemma finish_zero (sx : bool) (e1 : Z) : finish sx 0 e1 = S754_zero sx.
Proof.
  unfold finish, shr_fexp. cbn [Zdigits2 shr_record_of_loc].
  unfold shr. destruct (fexp64 (0 + e1) - e1) as [|p|p]; try reflexivity.
  rewrite iter_shr_1_m by (cbn; lia). cbn [shr_m].
  now rewrite Z.div_0_l by lia.
Qed.

(** No second shift when the mantissa already fits. *)
Lemma finish_fits (sx : bool) (m1 : positive) (e1 : Z) :
  fexp64 (Zpos (digits2_pos m1) + e1) <= e1 ->
  finish sx (Zpos m1) e1
  = if e1 <=? emax - prec then S754_finite sx m1 e1 else S754_infinity sx.
Proof.
  intros Hfit. unfold finish, shr_fexp. cbn [Zdigits2 shr_record_of_loc].
  unfold shr.
  destruct (fexp64 (Zpos (digits2_pos m1) + e1) - e1) as [|p|p] eqn:E;
    try reflexivity.
  lia.
Qed.

(** One more shift when rounding carried into the next binade. *)
Lemma finish_carry (sx : bool) (e1 : Z) :
  -1074 <= e1 ->
  finish sx (2 ^ 53) e1
  = if e1 + 1 <=? emax - prec
    then S754_finite sx (Z.to_pos (2 ^ 52)) (e1 + 1)
    else S754_infinity sx.
Proof.
  intros He. unfold finish, shr_fexp.
  change (Zdigits2 (2 ^ 53)) with 54.
  rewrite fexp64_eq.
  replace (Z.max (54 + e1 - 53) (-1074) - e1) with 1 by lia.
  reflexivity.
Qed.

Lemma digits2_pos_mono (p q : positive) :
  Zpos p <= Zpos q -> Zpos (digits2_pos p) <= Zpos (digits2_pos q).
Proof.
  intros Hpq.
  pose proof (digits2_pos_bounds p) as [Hlo _].
  pose proof (digits2_pos_bounds q) as [_ Hhi].
  destruct (Z.le_gt_cases (Zpos (digits2_pos p)) (Zpos (digits2_pos q)))
    as [|Hgt]; [assumption|].
  assert (2 ^ Zpos (digits2_pos q) <= 2 ^ (Zpos (digits2_pos p) - 1))
    by (apply Z.pow_le_mono_r; lia).
  lia.
Qed.

(** Multiplying a finite number by a factor in [1/2, 1) of exponent -53:
    the product keeps the sign, and either keeps the exponent with a
    mantissa that is not larger, or moves one exponent down. *)
Lemma SFmul_shrinks (sx : bool) (m mc : positive) (e : Z) :
  bounded prec emax m e = true ->
  2 ^ 52 <= Zpos mc < 2 ^ 53 ->
  let r := SFmul prec emax (S754_finite sx m e) (S754_finite false mc (-53)) in
  r = S754_zero sx
  \/ exists (m' : positive) (e' : Z),
      r = S754_finite sx m' e'
      /\ ((e' = e /\ Zpos m' <= Zpos m) \/ e' = e - 1).
Proof.
  intros Hb Hmc r. unfold r, SFmul. rewrite xorb_false_r. clear r.
  unfold bounded, canonical_mantissa in Hb.
  apply andb_true_iff in Hb as [Hcan Hemax].
  apply Z.eqb_eq in Hcan. apply Z.leb_le in Hemax.
  rewrite fexp64_eq in Hcan. change (emax - prec) with 971 in Hemax.
  pose proof (digits2_pos_bounds m) as [Hmlo Hmhi].
  set (dm := Zpos (digits2_pos m)) in *.
  assert (Hdm : 0 < dm) by (unfold dm; lia).
  set (M := (m * mc)%positive).
  assert (HM : Zpos M = Zpos m * Zpos mc) by reflexivity.
  assert (HMlo : 2 ^ (dm + 51) <= Zpos M).
  { replace (dm + 51) with ((dm - 1) + 52) by lia.
    rewrite Z.pow_add_r, HM by lia. apply Z.mul_le_mono_nonneg; lia. }
  assert (HMhi : Zpos M < 2 ^ (dm + 53)).
  { rewrite Z.pow_add_r, HM by lia.
    apply Z.mul_lt_mono_nonneg; lia. }
  assert (Hlt : Zpos M / 2 ^ 53 < Zpos m).
  { apply Z.div_lt_upper_bound; [lia|]. rewrite HM.
    rewrite (Z.mul_comm (2 ^ 53)). apply Z.mul_lt_mono_pos_l; lia. }
  set (d := Zpos (digits2_pos M)).
  assert (Hd : (d = dm + 52 /\ Zpos M < 2 ^ (dm + 52))
               \/ (d = dm + 53 /\ 2 ^ (dm + 52) <= Zpos M)).
  { destruct (Z.lt_ge_cases (Zpos M) (2 ^ (dm + 52))) as [Hlow | Hhigh].
    - left. split; [|assumption]. apply digits2_pos_unique.
      replace (dm + 52 - 1) with (dm + 51) by lia. lia.
    - right. split; [|assumption]. apply digits2_pos_unique.
      replace (dm + 53 - 1) with (dm + 52) by lia. lia. }
  (* the shift is 53, unless the product lost a bit and can be kept
     normal one exponent down *)
  assert (Hn : fexp64 (d + (e + -53)) - (e + -53) = 53
               \/ (fexp64 (d + (e + -53)) - (e + -53) = 52
                   /\ dm = 53 /\ d = 105 /\ -1073 <= e)).
  { rewrite fexp64_eq. lia. }
  destruct Hn as [Hn | (Hn & Hdm53 & Hd105 & He)].
  - (* shift by 53: same exponent, mantissa below [m] *)
    destruct (@binary_round_aux_shift sx M (e + -53) 53 Hn)
      as (m1 & [Hm1lo Hm1hi] & ->).
    replace (e + -53 + 53) with e by lia.
    assert (Hm1 : 0 <= m1 <= Zpos m).
    { split; [|lia]. etransitivity; [|exact Hm1lo]. apply Z.div_pos; lia. }
    destruct m1 as [|p1|p1]; [left; apply finish_zero | | lia].
    right. exists p1, e.
    rewrite finish_fits.
    + replace (e <=? emax - prec) with true
        by (symmetry; apply Z.leb_le; exact Hemax).
      split; [reflexivity|]. left. split; [reflexivity|lia].
    + rewrite fexp64_eq.
      pose proof (@digits2_pos_mono p1 m (proj2 Hm1)). fold dm in H. lia.
  - (* shift by 52: the product is in [2^104, 2^105) *)
    destruct (@binary_round_aux_shift sx M (e + -53) 52 Hn)
      as (m1 & [Hm1lo Hm1hi] & ->).
    replace (e + -53 + 52) with (e - 1) by lia.
    assert (HMrange : 2 ^ 104 <= Zpos M < 2 ^ 105).
    { pose proof (digits2_pos_bounds M) as HMb. fold d in HMb.
      rewrite Hd105 in HMb. exact HMb. }
    assert (Hq : 2 ^ 52 <= Zpos M / 2 ^ 52 < 2 ^ 53).
    { split.
      - apply Z.div_le_lower_bound; [lia|].
        rewrite <- Z.pow_add_r by lia. exact (proj1 HMrange).
      - apply Z.div_lt_upper_bound; [lia|].
        rewrite <- Z.pow_add_r by lia. exact (proj2 HMrange). }
    right.
    destruct (Z.eq_dec m1 (2 ^ 53)) as [-> | Hne].
    + exists (Z.to_pos (2 ^ 52)), e.
      rewrite finish_carry by lia.
      replace (e - 1 + 1) with e by lia.
      replace (e <=? emax - prec) with true
        by (symmetry; apply Z.leb_le; exact Hemax).
      split; [reflexivity|]. left. split; [reflexivity|].
      rewrite Hdm53 in Hmlo. change (Zpos (Z.to_pos (2 ^ 52))) with (2 ^ 52).
      exact Hmlo.
    + destruct m1 as [|p1|p1]; [lia | | lia].
      exists p1, (e - 1).
      rewrite finish_fits.
      * replace (e - 1 <=? emax - prec) with true
          by (symmetry; apply Z.leb_le; change (emax - prec) with 971; lia).
        split; [reflexivity|]. now right.
      * rewrite fexp64_eq.
        rewrite (@digits2_pos_unique p1 53) by (change (53 - 1) with 52; lia).
        lia.
Qed.

(** Order of finite numbers of one sign, by exponent then mantissa. *)
Lemma SFleb_pos_iff (m1 m2 : positive) (e1 e2 : Z) :
  SFleb (S754_finite false m1 e1) (S754_finite false m2 e2) = true
  <-> e1 < e2 \/ (e1 = e2 /\ Zpos m1 <= Zpos m2).
Proof.
  unfold SFleb, SFcompare. change (Pos.compare_cont Eq m1 m2) with (m1 ?= m2)%positive.
  destruct (Z.compare_spec e1 e2) as [-> | Hlt | Hgt].
  - destruct (Pos.compare_spec m1 m2) as [-> | Hlt | Hgt]; split; intros H;
      try reflexivity; try discriminate; try lia.
  - split; [intros _; now left | reflexivity].
  - split; [discriminate | lia].
Qed.

Lemma SFleb_neg_iff (m1 m2 : positive) (e1 e2 : Z) :
  SFleb (S754_finite true m1 e1) (S754_finite true m2 e2) = true
  <-> e2 < e1 \/ (e1 = e2 /\ Zpos m2 <= Zpos m1).
Proof.
  unfold SFleb, SFcompare. change (Pos.compare_cont Eq m1 m2) with (m1 ?= m2)%positive.
  destruct (Z.compare_spec e1 e2) as [-> | Hlt | Hgt].
  - destruct (Pos.compare_spec m1 m2) as [-> | Hlt | Hgt]; split; intros H;
      try reflexivity; try discriminate; try lia.
  - split; [discriminate | lia].
  - split; [intros _; now left | reflexivity].
Qed.

Lemma SFmul_in_range (x : spec_float) (mc : positive) :
  valid_binary x = true ->
  2 ^ 52 <= Zpos mc < 2 ^ 53 ->
  SF_in_range x ->
  SF_in_range (SFmul prec emax x (S754_finite false mc (-53))).
Proof.
  intros Hvalid Hmc [Hlo Hhi].
  destruct x as [s | s | | sx m e]; try discriminate.
  - (* zero *) cbn [SFmul]. destruct s; split; reflexivity.
  - destruct s; discriminate.
  - cbn [valid_binary] in Hvalid.
    destruct (@SFmul_shrinks sx m mc e Hvalid Hmc)
      as [-> | (m' & e' & -> & Hshrink)].
    + destruct sx; split; reflexivity.
    + unfold SF_in_range, hi64, lo64 in *. destruct sx.
      * split; [|reflexivity].
        apply SFleb_neg_iff. apply SFleb_neg_iff in Hlo.
        destruct Hshrink as [[-> Hm] | ->]; lia.
      * split; [reflexivity|].
        apply SFleb_pos_iff. apply SFleb_pos_iff in Hhi.
        destruct Hshrink as [[-> Hm] | ->]; lia.
Qed.

(** *** Sums of finite numbers are numbers *)

Lemma shr_m_nonneg (mrs : shr_record) (e n : Z) :
  0 <= shr_m mrs -> 0 <= shr_m (fst (shr mrs e n)).
Proof.
  intros Hm. unfold shr. destruct n as [|p|p]; cbn [fst]; try assumption.
  rewrite iter_shr_1_m by assumption. apply Z.div_pos; lia.
Qed.

Lemma binary_round_aux_not_nan (sx : bool) (M : positive) (E : Z) :
  binary_round_aux prec emax sx (Zpos M) E loc_Exact <> S754_nan.
Proof.
  unfold binary_round_aux, shr_fexp.
  pose proof (@shr_m_nonneg (shr_record_of_loc (Zpos M) loc_Exact) E
                (fexp64 (Zdigits2 (Zpos M) + E) - E)) as H1.
  destruct (shr (shr_record_of_loc (Zpos M) loc_Exact) E _) as [mrs' e'].
  cbn [fst] in H1. specialize (H1 ltac:(cbn; lia)).
  set (m1 := round_nearest_even (shr_m mrs') (loc_of_shr_record mrs')).
  assert (Hm1 : 0 <= m1).
  { pose proof (round_nearest_even_bounds (shr_m mrs')
                  (loc_of_shr_record mrs')). fold m1 in H. lia. }
  pose proof (@shr_m_nonneg (shr_record_of_loc m1 loc_Exact) e'
                (fexp64 (Zdigits2 m1 + e') - e')) as H2.
  destruct (shr (shr_record_of_loc m1 loc_Exact) e' _) as [mrs'' e''].
  cbn [fst] in H2. specialize (H2 Hm1).
  destruct (shr_m mrs'') as [|p|p]; [discriminate | | lia].
  destruct (e'' <=? emax - prec); discriminate.
Qed.

Lemma binary_normalize_not_nan (z e : Z) (s : bool) :
  binary_normalize prec emax z e s <> S754_nan.
Proof.
  unfold binary_normalize, binary_round.
  destruct z as [|p|p]; [discriminate | |];
    destruct (shl_align _ _ _) as [mz ez]; apply binary_round_aux_not_nan.
Qed.

Lemma SFadd_not_nan (x y : spec_float) :
  SFfinite x -> SFfinite y -> SFadd prec emax x y <> S754_nan.
Proof.
  destruct x as [sx | | | sx mx ex], y as [sy | | | sy my ey];
    cbn [SFfinite SFadd]; try contradiction; intros _ _; try discriminate.
  - destruct sx, sy; discriminate.
  - apply binary_normalize_not_nan.
Qed.

Lemma SFsub_not_nan (x y : spec_float) :
  SFfinite x -> SFfinite y -> SFsub prec emax x y <> S754_nan.
Proof.
  destruct x as [sx | | | sx mx ex], y as [sy | | | sy my ey];
    cbn [SFfinite SFsub]; try contradiction; intros _ _; try discriminate.
  - destruct sx, sy; discriminate.
  - apply binary_normalize_not_nan.
Qed.

Lemma SF_in_range_finite (x : spec_float) : SF_in_range x -> SFfinite x.
Proof.
  intros [Hlo Hhi]. destruct x as [s | s | | s m e]; cbn; try exact I.
  - destruct s; discriminate.
  - discriminate.
Qed.

(** *** The order is total on numbers *)

Lemma SFcompare_antisym (x y : spec_float) :
  SFcompare y x = option_map CompOpp (SFcompare x y).
Proof.
  destruct x as [sx | sx | | sx mx ex], y as [sy | sy | | sy my ey];
    cbn [SFcompare option_map]; try reflexivity;
    try (destruct sx; reflexivity); try (destruct sy; reflexivity);
    try (destruct sx, sy; reflexivity).
  change (Pos.compare_cont Eq my mx) with (my ?= mx)%positive.
  change (Pos.compare_cont Eq mx my) with (mx ?= my)%positive.
  rewrite (Z.compare_antisym ex ey), (Pos.compare_antisym mx my).
  destruct sx, sy; try reflexivity;
    destruct (ex ?= ey); cbn [CompOpp]; try reflexivity;
    destruct (mx ?= my)%positive; reflexivity.
Qed.

Lemma SFltb_false_SFleb (x y : spec_float) :
  x <> S754_nan -> y <> S754_nan ->
  SFltb x y = false -> SFleb y x = true.
Proof.
  intros Hx Hy. unfold SFltb, SFleb. rewrite (SFcompare_antisym x y).
  destruct (SFcompare x y) as [[]|] eqn:E; cbn; try reflexivity; try discriminate.
  destruct x, y; try congruence; cbn in E; try discriminate;
    try (destruct s; discriminate); try (destruct s0; discriminate).
Qed.

(** The clamp of line 86 on a number. *)
Lemma SF_clamp_in_range (a : spec_float) :
  a <> S754_nan ->
  SF_in_range
    (let m := if SFltb hi64 a then hi64 else a in
     if SFltb m lo64 then lo64 else m).
Proof.
  intros Ha. cbv zeta.
  destruct (SFltb hi64 a) eqn:E1.
  - change (SFltb hi64 lo64) with false. split; reflexivity.
  - assert (Hhi : SFleb a hi64 = true)
      by (apply SFltb_false_SFleb; [discriminate | assumption | assumption]).
    destruct (SFltb a lo64) eqn:E2.
    + split; reflexivity.
    + split; [|assumption].
      apply SFltb_false_SFleb; [assumption | discriminate | assumption].
Qed.
End Binary64.

(** *** From the specification of the format to the program *)

Lemma Prim2SF_if (b : bool) (x y : float) :
  Prim2SF (if b then x else y) = if b then Prim2SF x else Prim2SF y.
Proof. now destruct b. Qed.

Lemma Prim2SF_hi : Prim2SF (of_Z 7) = hi64.
Proof. vm_compute. reflexivity. Qed.

Lemma Prim2SF_lo : Prim2SF (fdiv (fneg (of_Z 7)) (of_Z 2)) = lo64.
Proof. vm_compute. reflexivity. Qed.

Lemma in_range64_spec (s : float) : in_range64 s <-> SF_in_range (Prim2SF s).
Proof.
  unfold in_range64, SF_in_range.
  now rewrite !leb_spec, Prim2SF_hi, Prim2SF_lo.
Qed.

Lemma clamp_in_range64 (a : float) :
  Prim2SF a <> S754_nan ->
  in_range64 (py_max (py_min a (of_Z 7)) (fdiv (fneg (of_Z 7)) (of_Z 2))).
Proof.
  intros Ha. apply in_range64_spec.
  unfold py_max, py_min. cbn [fltb binary64].
  rewrite !Prim2SF_if, !ltb_spec, !Prim2SF_if, Prim2SF_hi, Prim2SF_lo.
  now apply SF_clamp_in_range.
Qed.

Lemma in_range64_finite (s : float) : in_range64 s -> SFfinite (Prim2SF s).
Proof. intros Hs. now apply SF_in_range_finite, in_range64_spec. Qed.

(** Lines 76-84 turn an in-range speed into a number (not nan). *)
Lemma throttle_not_nan (T : Trig float) (c : Car.t float) (k : Keys) :
  Car.tuned c ->
  in_range64 (Car.speed c) ->
  Prim2SF (Car.speed (Car.throttle c k)) <> S754_nan.
Proof.
  intros (_ & Hacc & Hdec & Hfr & _) Hs.
  pose proof (in_range64_finite Hs) as Hfin.
  assert (Hnum : Prim2SF (Car.speed c) <> S754_nan)
    by (destruct (Prim2SF (Car.speed c)); cbn in Hfin;
        [discriminate | contradiction | contradiction | discriminate]).
  unfold Car.throttle.
  destruct (K_UP k || K_w k);
    [|destruct (K_DOWN k || K_s k);
      [|destruct (fltb (of_Z 0) (Car.speed c));
        [|destruct (fltb (Car.speed c) (of_Z 0))]]];
    cbn [Car.speed Car.set_speed fadd fsub binary64];
    rewrite ?Hacc, ?Hdec, ?Hfr, ?add_spec, ?sub_spec;
    try exact Hnum;
    (apply SFadd_not_nan || apply SFsub_not_nan);
    try exact Hfin; vm_compute; exact I.
Qed.

Lemma steering_speed_in_range64 (T : Trig float) (c : Car.t float) (k : Keys) :
  Car.tuned c ->
  in_range64 (Car.speed c) ->
  in_range64 (steering_speed c k).
Proof.
  intros Htuned Hs.
  assert (Hmax : Car.max_speed (Car.throttle c k) = of_Z 7)
    by (apply tuned_throttle; exact Htuned).
  unfold steering_speed, Car.clamp_speed.
  cbn [Car.speed Car.set_speed]. rewrite Hmax.
  apply clamp_in_range64. now apply (throttle_not_nan T).
Qed.

Lemma penalty_in_range64 (c : Car.t float) (on : bool) :
  in_range64 (Car.speed c) -> in_range64 (Car.speed (Game.penalty c on)).
Proof.
  intros Hs. unfold Game.penalty. destruct on; cbn [negb]; [exact Hs|].
  cbn [Car.speed Car.set_speed fmul binary64].
  apply in_range64_spec. rewrite mul_spec.
  replace (Prim2SF (lit 0.95)) with (S754_finite false 8556839292003942 (-53))
    by (vm_compute; reflexivity).
  apply SFmul_in_range.
  - apply Prim2SF_valid.
  - split; [discriminate | reflexivity].
  - now apply in_range64_spec.
Qed.

Lemma tick_car_in_range64 (T : Trig float) (c : Car.t float)
  (i : Keys * bool) :
  Car.tuned c ->
  in_range64 (Car.speed c) ->
  Car.tuned (tick_car c i) /\ in_range64 (Car.speed (tick_car c i)).
Proof.
  intros Htuned Hs. unfold tick_car. split.
  - now apply tuned_penalty, tuned_update.
  - apply penalty_in_range64. rewrite speed_update.
    now apply steering_speed_in_range64.
Qed.

Lemma ride_in_range64 (T : Trig float) (history : list (Keys * bool)) :
  forall c : Car.t float,
    Car.tuned c ->
    in_range64 (Car.speed c) ->
    Forall (fun c' => in_range64 (Car.speed c')) (ride c history).
Proof.
  induction history as [|i history IH]; intros c Htuned Hs; cbn [ride].
  - constructor.
  - destruct (tick_car_in_range64 T i Htuned Hs) as [Htuned' Hs'].
    constructor; [exact Hs'|]. now apply IH.
Qed.

(** The car [Game.update] leaves is the car of [tick_car], for the value
    [is_on_track] returned. *)
Lemma update_car {F : Type} `{PyFloat F} {T : Trig F} {R : Raster F}
  (g g' : Game.t F) (i : Game.input F) :
  Game.update g i = Ok g' ->
  exists on : bool,
    Track.is_on_track (Game.track g)
      (Car.x (Car.update (Game.car g) (Game.keys i)))
      (Car.y (Car.update (Game.car g) (Game.keys i))) = Ok on
    /\ Game.car g' = tick_car (Game.car g) (Game.keys i, on).
Proof.
  unfold Game.update. intros Hup.
  destruct (Rect.of_floats _ _ _ _) as [car_rect|]; [|discriminate].
  cbn [bind] in Hup.
  cbn [Game.car Game.set_car Game.track] in Hup.
  destruct (Track.is_on_track _ _ _) as [on|]; [|discriminate].
  cbn [bind] in Hup.
  destruct (Track.check_finish_line_cross _ _ _) as [crossed|];
    [|discriminate].
  cbn [bind] in Hup. exists on. split; [reflexivity|].
  destruct (crossed && _); injection Hup as <-; reflexivity.
Qed.

Lemma run_in_range64 (T : Trig float) (R : Raster float)
  (inputs : list (Game.input float)) :
  forall (g : Game.t float) (states : list (Game.t float)),
    Car.tuned (Game.car g) ->
    in_range64 (Car.speed (Game.car g)) ->
    Game.run g inputs = Ok states ->
    Forall (fun g' => in_range64 (Car.speed (Game.car g'))) states.
Proof.
  induction inputs as [|i inputs IH]; intros g states Htuned Hs Hrun;
    cbn [Game.run] in Hrun.
  - injection Hrun as <-. constructor.
  - destruct (Game.update g i) as [g'|] eqn:Hup; [|discriminate].
    cbn [bind] in Hrun.
    destruct (Game.run g' inputs) as [rest|] eqn:Hrest; [|discriminate].
    injection Hrun as <-.
    destruct (update_car g i Hup) as (on & _ & Hcar).
    destruct (tick_car_in_range64 T (Game.keys i, on) Htuned Hs)
      as [Htuned' Hs'].
    rewrite <- Hcar in Htuned', Hs'.
    constructor; [exact Hs'|]. now apply (IH g').
Qed.

(** C1.  For every sequence of ticks, whatever the keys held and
    whatever the on-track/off-track history, the speed after each full
    tick (the clamp of line 86, then the off-track factor 0.95) lies in
    [-max_speed / 2, max_speed] = [-3.5, 7], provided it starts there.
    - In exact arithmetic, over [Game.run]: every tick returns and
      leaves the speed in the range.
    - On binary64, over any history of keys and on-track samples
      ([ride]), and over every run of [Game.run] that returns: the
      clamp compares, so it is exact, and rounding the product by 0.95
      never leaves the range. *)
Theorem speed_stays_in_range :
  (forall (T : Trig Q) (R : Raster Q) (g : Game.t Q)
          (inputs : list (Game.input Q)),
      Car.tuned (Game.car g) ->
      Track.finish_line (Game.track g) <> None ->
      in_range (Car.speed (Game.car g)) ->
      exists states : list (Game.t Q),
        Game.run g inputs = Ok states
        /\ List.length states = List.length inputs
        /\ Forall (fun g' => in_range (Car.speed (Game.car g'))) states)
  /\ (forall (T : Trig float) (c : Car.t float)
             (history : list (Keys * bool)),
         Car.tuned c ->
         in_range64 (Car.speed c) ->
         Forall (fun c' => in_range64 (Car.speed c')) (ride c history))
  /\ (forall (T : Trig float) (R : Raster float) (g : Game.t float)
             (inputs : list (Game.input float))
             (states : list (Game.t float)),
         Car.tuned (Game.car g) ->
         in_range64 (Car.speed (Game.car g)) ->
         Game.run g inputs = Ok states ->
         Forall (fun g' => in_range64 (Car.speed (Game.car g'))) states).
Proof.
  split; [|split].
  - intros T R g inputs Htuned Hfl _. now apply run_in_range.
  - intros T c history. apply ride_in_range64.
  - intros T R g inputs states. apply run_in_range64.
Qed.

(** Three ticks of the reversing car of [Sample], in both arithmetics. *)
Lemma speed_stays_in_range_reversing :
  (Car.tuned (Game.car (Sample.reversing Q))
   /\ Track.finish_line (Game.track (Sample.reversing Q)) <> None
   /\ in_range (Car.speed (Game.car (Sample.reversing Q)))
   /\ exists states : list (Game.t Q),
       Game.run (T := taylor_trig Q) (R := flat_raster Q)
         (Sample.reversing Q)
         [Game.tick hold_down_left 105; Game.tick no_keys 106;
          Game.tick hold_up 107]
       = Ok states
       /\ List.length states = 3%nat
       /\ Forall (fun g' => in_range (Car.speed (Game.car g'))) states)
  /\ (Car.tuned (Game.car (Sample.reversing float))
      /\ in_range64 (Car.speed (Game.car (Sample.reversing float)))
      /\ Forall (fun c' => in_range64 (Car.speed c'))
           (ride (T := taylor_trig float)
              (Game.car (Sample.reversing float))
              [(hold_down_left, true); (no_keys, false); (hold_up, false)])).
Proof.
  assert (Htuned : Car.tuned (Game.car (Sample.reversing Q)))
    by (repeat split).
  assert (Hfl : Track.finish_line (Game.track (Sample.reversing Q)) <> None)
    by discriminate.
  assert (Hin : in_range (Car.speed (Game.car (Sample.reversing Q))))
    by (split; discriminate).
  assert (Htuned64 : Car.tuned (Game.car (Sample.reversing float)))
    by (repeat split).
  assert (Hin64 : in_range64 (Car.speed (Game.car (Sample.reversing float))))
    by (split; vm_compute; reflexivity).
  split.
  - refine (conj Htuned (conj Hfl (conj Hin _))).
    exact (proj1 speed_stays_in_range (taylor_trig Q) (flat_raster Q)
             (Sample.reversing Q)
             [Game.tick hold_down_left 105; Game.tick no_keys 106;
              Game.tick hold_up 107] Htuned Hfl Hin).
  - refine (conj Htuned64 (conj Hin64 _)).
    exact (proj1 (proj2 speed_stays_in_range) (taylor_trig float)
             (Game.car (Sample.reversing float))
             [(hold_down_left, true); (no_keys, false); (hold_up, false)]
             Htuned64 Hin64).
Defined.

(** ** More of [Car.update]: inputs, steering, the field *)

Section Inputs.
Context {F : Type} `{PyFloat F} {T : Trig F}.

Lemma throttle_logical (c : Car.t F) (k k' : Keys) :
  accelerate k = accelerate k' ->
  accelerate k = true \/ brake k = brake k' ->
  Car.throttle c k = Car.throttle c k'.
Proof.
  intros Hacc Hbr. unfold Car.throttle.
  change (K_UP k || K_w k) with (accelerate k).
  change (K_UP k' || K_w k') with (accelerate k').
  change (K_DOWN k || K_s k) with (brake k).
  change (K_DOWN k' || K_s k') with (brake k').
  rewrite <- Hacc.
  destruct (accelerate k); [reflexivity|].
  destruct Hbr as [Habs | <-]; [discriminate | reflexivity].
Qed.

(** X1.  [Car.update] reads the keyboard only through the four logical
    inputs: two keyboard states that agree on accelerate, on steer-left
    and on steer-right, and on brake unless accelerate is held (brake
    is then ignored), give the same car.  So WASD and the arrows are
    interchangeable, and accelerate wins over brake. *)
Theorem update_reads_logical_inputs (c : Car.t F) (k k' : Keys) :
  accelerate k = accelerate k' ->
  accelerate k = true \/ brake k = brake k' ->
  steer_left k = steer_left k' ->
  steer_right k = steer_right k' ->
  Car.update c k = Car.update c k'.
Proof.
  intros Hacc Hbr Hl Hr. unfold Car.update.
  rewrite (throttle_logical c k k' Hacc Hbr).
  set (c1 := Car.clamp_speed (Car.throttle c k')).
  assert (Hleft : Car.steer_left c1 k = Car.steer_left c1 k').
  { unfold Car.steer_left.
    change (K_LEFT k || K_a k) with (steer_left k).
    change (K_LEFT k' || K_a k') with (steer_left k').
    now rewrite Hl. }
  rewrite Hleft.
  set (c2 := Car.steer_left c1 k').
  assert (Hright : Car.steer_right c2 k = Car.steer_right c2 k').
  { unfold Car.steer_right.
    change (K_RIGHT k || K_d k) with (steer_right k).
    change (K_RIGHT k' || K_d k') with (steer_right k').
    now rewrite Hr. }
  now rewrite Hright.
Qed.

(** The heading after a tick, in one formula. *)
Lemma angle_step (c : Car.t F) (k : Keys) :
  Car.angle (Car.update c k)
  = (Car.angle c
     + (if feqb (steering_speed c k) (of_Z 0) then 0
        else Car.turn_speed c
             * (if fltb (of_Z 0) (steering_speed c k) then 1 else -1)
             * steer_sum k))%Z.
Proof.
  rewrite angle_update.
  set (c1 := Car.clamp_speed (Car.throttle c k)).
  assert (H1 : Car.angle c1 = Car.angle c).
  { unfold c1, Car.clamp_speed. rewrite angle_set_speed. apply angle_throttle. }
  assert (Ht1 : Car.turn_speed c1 = Car.turn_speed c).
  { unfold c1, Car.clamp_speed, Car.throttle. branches; reflexivity. }
  unfold Car.steer_right. rewrite speed_steer_left, turn_speed_steer_left.
  unfold Car.steer_left.
  change (Car.speed c1) with (steering_speed c k).
  change (K_LEFT k || K_a k) with (steer_left k).
  change (K_RIGHT k || K_d k) with (steer_right k).
  unfold steer_sum. rewrite Ht1.
  destruct (feqb (steering_speed c k) (of_Z 0)); cbn [negb];
    rewrite ?andb_false_r, ?andb_true_r.
  - rewrite H1. lia.
  - destruct (steer_left k), (steer_right k),
      (fltb (of_Z 0) (steering_speed c k));
      cbn [Car.angle Car.set_angle]; rewrite H1; lia.
Qed.
End Inputs.

Section Steering.
Context {F : Type} `{PyFloat F} {T : Trig F}.

(** X2.  While the car moves, one steer input turns it by exactly
    [turn_speed] degrees per tick, whatever the speed; steer-left adds
    to the heading going forward and subtracts in reverse, steer-right
    the other way round. *)
Theorem steering_turns_by_turn_speed (c : Car.t F) (k : Keys) :
  feqb (steering_speed c k) (of_Z 0) = false ->
  steer_left k <> steer_right k ->
  Car.angle (Car.update c k)
  = if Bool.eqb (steer_left k) (fltb (of_Z 0) (steering_speed c k))
    then (Car.angle c + Car.turn_speed c)%Z
    else (Car.angle c - Car.turn_speed c)%Z.
Proof.
  intros Hmoving Hone. rewrite angle_step, Hmoving. unfold steer_sum.
  destruct (steer_left k), (steer_right k); try congruence;
    destruct (fltb (of_Z 0) (steering_speed c k)); cbn [Bool.eqb]; lia.
Qed.

Lemma turn_speed_update (c : Car.t F) (k : Keys) :
  Car.turn_speed (Car.update c k) = Car.turn_speed c.
Proof.
  unfold Car.update.
  change (Car.turn_speed (Car.move ?c)) with (Car.turn_speed c).
  unfold Car.steer_right at 1.
  destruct (_ && _); cbn [Car.turn_speed Car.set_angle];
    rewrite turn_speed_steer_left;
    unfold Car.clamp_speed, Car.throttle; branches; reflexivity.
Qed.

(** X3.  The heading stays on the grid of [turn_speed]: if it is a
    multiple of [turn_speed] it is one after any sequence of ticks.
    From [Car.__init__] (heading 0, [turn_speed] 4) the heading is
    always a multiple of 4 degrees. *)
Theorem heading_stays_on_the_turn_grid (ks : list Keys) :
  forall c : Car.t F,
    (Car.turn_speed c | Car.angle c)%Z ->
    (Car.turn_speed c | Car.angle (drive c ks))%Z
    /\ Car.turn_speed (drive c ks) = Car.turn_speed c.
Proof.
  induction ks as [|k ks IH]; intros c Hdiv.
  - split; [exact Hdiv | reflexivity].
  - change (drive c (k :: ks)) with (drive (Car.update c k) ks).
    assert (Hstep : (Car.turn_speed (Car.update c k)
                     | Car.angle (Car.update c k))%Z).
    { rewrite turn_speed_update, angle_step.
      apply Z.divide_add_r; [exact Hdiv|].
      destruct (feqb (steering_speed c k) (of_Z 0)).
      - apply Z.divide_0_r.
      - rewrite <- Z.mul_assoc. apply Z.divide_factor_l. }
    destruct (IH (Car.update c k) Hstep) as [Hgrid Hts].
    rewrite turn_speed_update in Hgrid, Hts. now split.
Qed.
End Steering.

(** Backing up with steer-left held turns the car clockwise. *)
Lemma steering_in_reverse :
  feqb (steering_speed (Game.car (Sample.reversing float)) hold_down_left)
       (of_Z 0) = false
  /\ steer_left hold_down_left <> steer_right hold_down_left
  /\ Car.angle (Car.update (T := taylor_trig float)
                  (Game.car (Sample.reversing float)) hold_down_left)
     = (-4)%Z.
Proof.
  assert (Hm : feqb (steering_speed (Game.car (Sample.reversing float))
                       hold_down_left) (of_Z 0) = false)
    by (vm_compute; reflexivity).
  assert (Hone : steer_left hold_down_left <> steer_right hold_down_left)
    by discriminate.
  refine (conj Hm (conj Hone _)).
  rewrite (steering_turns_by_turn_speed (T := taylor_trig float)
             (Game.car (Sample.reversing float)) hold_down_left Hm Hone).
  vm_compute. reflexivity.
Defined.

(** A car fresh from [Car.__init__], after a few ticks of steering. *)
Lemma heading_grid_from_init :
  (Car.turn_speed (Sample.at_rest float) | Car.angle (Sample.at_rest float))%Z
  /\ (4 | Car.angle (drive (T := taylor_trig float) (Sample.at_rest float)
                       [hold_left_right; hold_up; hold_left; hold_down_left]))%Z.
Proof.
  assert (H0 : (Car.turn_speed (Sample.at_rest float)
                | Car.angle (Sample.at_rest float))%Z)
    by (exists 0%Z; reflexivity).
  split; [exact H0|].
  exact (proj1 (heading_stays_on_the_turn_grid (T := taylor_trig float)
                  [hold_left_right; hold_up; hold_left; hold_down_left]
                  (Sample.at_rest float) H0)).
Defined.

(** Arrows up+down+left against W+A: the same tick. *)
Lemma update_arrows_or_wasd :
  accelerate hold_up_down_left = accelerate hold_w_a
  /\ Car.update (T := taylor_trig float) (Sample.at_rest float)
       hold_up_down_left
     = Car.update (T := taylor_trig float) (Sample.at_rest float) hold_w_a.
Proof.
  assert (Hacc : accelerate hold_up_down_left = accelerate hold_w_a)
    by reflexivity.
  split; [exact Hacc|].
  apply (update_reads_logical_inputs (T := taylor_trig float)
           (Sample.at_rest float) hold_up_down_left hold_w_a Hacc).
  - left. reflexivity.
  - reflexivity.
  - reflexivity.
Defined.

(** ** More of the lap timer *)

Section LapTimer.
Context {F : Type} `{PyFloat F} {T : Trig F} {R : Raster F}.

(** What a tick of [Game.update] leaves, field by field. *)
Lemma update_detail (g g' : Game.t F) (i : Game.input F) :
  Game.update g i = Ok g' ->
  exists (car_rect : Rect.t) (crossed : bool),
    Track.check_finish_line_cross (Game.track g) car_rect
      (Game.prev_car_rect g) = Ok crossed
    /\ Game.prev_car_rect g' = car_rect
    /\ Game.track g' = Game.track g
    /\ Game.game_over g' = Game.game_over g
    /\ Game.timer g'
       = if crossed && fltb (of_Z 0) (Car.speed (Game.car g'))
         then Game.crossing (Game.timer g) (Game.now i)
         else Game.timer g.
Proof.
  unfold Game.update. intros Hup.
  destruct (Rect.of_floats _ _ _ _) as [car_rect|]; [|discriminate].
  cbn [bind] in Hup.
  destruct (Track.is_on_track _ _ _) as [on|]; [|discriminate].
  cbn [bind] in Hup.
  cbn [Game.track Game.set_car Game.prev_car_rect] in Hup.
  destruct (Track.check_finish_line_cross _ _ _) as [crossed|] eqn:Hcross;
    [|discriminate].
  cbn [bind] in Hup. exists car_rect, crossed.
  split; [exact Hcross|].
  match type of Hup with
  | context [if crossed && ?b then _ else _] =>
      destruct (crossed && b) eqn:Hfire
  end; injection Hup as <-;
    cbn [Game.car Game.set_prev_car_rect Game.set_timer Game.set_car
         Game.prev_car_rect Game.track Game.game_over] in *;
    rewrite Hfire; repeat split.
  change (Game.timer (Game.set_prev_car_rect ?g _)) with (Game.timer g).
  now rewrite timer_set_timer.
Qed.

Lemma crossing_counts_one (l : Game.laps F) (now : F) :
  counts_up (Game.l_laps_completed l)
            (Game.l_laps_completed (Game.crossing l now)).
Proof.
  unfold Game.crossing, counts_up.
  destruct (Game.l_start_time l); cbn [Game.l_laps_completed]; lia.
Qed.

Lemma crossing_changes_timer (l : Game.laps F) (now : F) :
  Game.crossing l now <> l.
Proof.
  unfold Game.crossing. destruct l as [[start|] lap best n];
    cbn [Game.l_start_time Game.l_lap_time Game.l_best_lap_time
         Game.l_laps_completed]; intros Heq; injection Heq; intros; lia
    || discriminate.
Qed.

(** X4.  Along a run the lap counter never drops, and rises by one at
    most from one tick to the next. *)
Theorem laps_completed_counts_up (inputs : list (Game.input F)) :
  forall (g : Game.t F) (states : list (Game.t F)),
    Game.run g inputs = Ok states ->
    Sorted counts_up (map Game.laps_completed (g :: states)).
Proof.
  induction inputs as [|i inputs IH]; intros g states Hrun;
    cbn [Game.run] in Hrun.
  - injection Hrun as <-. repeat constructor.
  - destruct (Game.update g i) as [g'|] eqn:Hup; [|discriminate].
    cbn [bind] in Hrun.
    destruct (Game.run g' inputs) as [rest|] eqn:Hrest; [|discriminate].
    injection Hrun as <-.
    specialize (IH g' rest Hrest).
    cbn [map] in *. constructor; [exact IH|]. constructor.
    destruct (update_detail g i Hup) as (_ & crossed & _ & _ & _ & _ & Ht).
    assert (Hn : Game.laps_completed g'
                 = Game.l_laps_completed (Game.timer g')) by reflexivity.
    rewrite Hn, Ht.
    change (Game.laps_completed g)
      with (Game.l_laps_completed (Game.timer g)).
    destruct (crossed && _).
    + apply crossing_counts_one.
    + unfold counts_up. lia.
Qed.

(** X5.  A crossing event cannot fire on two ticks in a row: on the
    tick after the timer changed, the previous rectangle is the one
    that overlapped the finish line, so the timer stays. *)
Theorem no_crossing_on_consecutive_ticks
  (g g1 g2 : Game.t F) (i1 i2 : Game.input F) :
  Game.update g i1 = Ok g1 ->
  Game.update g1 i2 = Ok g2 ->
  Game.timer g1 <> Game.timer g ->
  Game.timer g2 = Game.timer g1.
Proof.
  intros Hup1 Hup2 Hfired.
  destruct (update_detail g i1 Hup1)
    as (rect1 & crossed1 & Hc1 & Hprev1 & Htrack1 & _ & Ht1).
  destruct (update_detail g1 i2 Hup2)
    as (rect2 & crossed2 & Hc2 & _ & _ & _ & Ht2).
  assert (Hcrossed1 : crossed1 = true).
  { destruct crossed1; [reflexivity|]. cbn [andb] in Ht1. congruence. }
  subst crossed1.
  rewrite Htrack1, Hprev1 in Hc2.
  unfold Track.check_finish_line_cross in Hc1, Hc2.
  destruct (Track.finish_line (Game.track g)) as [fl|]; [|discriminate].
  cbn [Track.getattr bind] in Hc1, Hc2.
  destruct (Rect.colliderect fl rect1) eqn:Hon1; [|discriminate].
  destruct (Rect.colliderect fl rect2); cbn [negb] in Hc2;
    injection Hc2 as <-; exact Ht2.
Qed.
End LapTimer.

Section Crossings.
Context {F : Type} `{PyFloat F}.

Lemma last_cons_default {A : Type} (l : list A) (a d : A) :
  List.last (a :: l) d = List.last l a.
Proof.
  revert a d. induction l as [|b l IH]; intros a d; [reflexivity|].
  change (List.last (a :: b :: l) d) with (List.last (b :: l) d).
  now rewrite (IH b d), (IH b a).
Qed.

Lemma crossings_counters (ts : list F) :
  forall (l : Game.laps F) (start : F),
    Game.l_start_time l = Some start ->
    Game.l_start_time (crossings ts l) = Some (List.last ts start)
    /\ Game.l_laps_completed (crossings ts l)
       = (Game.l_laps_completed l + Z.of_nat (List.length ts))%Z
    /\ Game.l_lap_time (crossings ts l)
       = List.last (durations start ts) (Game.l_lap_time l).
Proof.
  induction ts as [|t ts IH]; intros l start Hstart.
  - cbn. repeat split; [exact Hstart | lia].
  - cbn [crossings fold_left].
    assert (Hstep : Game.crossing l t
                    = Game.mk_laps (Some t) (fsub t start)
                        (Some (py_min (Game.best_or (Game.l_best_lap_time l)
                                         (fsub t start)) (fsub t start)))
                        (Game.l_laps_completed l + 1)%Z).
    { unfold Game.crossing. now rewrite Hstart. }
    destruct (IH (Game.crossing l t) t) as (Hs & Hn & Hlap).
    { now rewrite Hstep. }
    fold (crossings ts (Game.crossing l t)).
    rewrite Hs, Hn, Hlap, Hstep.
    cbn [Game.l_laps_completed Game.l_lap_time List.length durations].
    repeat split.
    + now rewrite last_cons_default.
    + lia.
    + now rewrite last_cons_default.
Qed.

(** X6.  Back-to-back lap timing: after crossing events at the clock
    readings [t0 :: ts], in any arithmetic, the timer runs from the
    last reading, the laps completed are the crossings after the first,
    and the last lap time is the difference of the last two readings
    (0, as [__init__] left it, when no lap was completed). *)
Theorem crossings_count_laps (t0 : F) (ts : list F) :
  Game.l_start_time (crossings (t0 :: ts) not_started)
  = Some (List.last ts t0)
  /\ Game.l_laps_completed (crossings (t0 :: ts) not_started)
     = Z.of_nat (List.length ts)
  /\ Game.l_lap_time (crossings (t0 :: ts) not_started)
     = List.last (durations t0 ts) (of_Z 0).
Proof.
  change (crossings (t0 :: ts) not_started)
    with (crossings ts (Game.crossing not_started t0)).
  destruct (crossings_counters ts (Game.crossing not_started t0)
              (start := t0) eq_refl) as (Hs & Hn & Hlap).
  rewrite Hs, Hn, Hlap. repeat split.
Qed.
End Crossings.

(** Two ticks onto the finish line: the first completes a lap, the
    second cannot. *)
Lemma laps_counted_onto_the_line :
  Game.run (T := taylor_trig float) (R := flat_raster float)
    (Sample.approaching float) Sample.onto_the_line = Ok Sample.lap_run
  /\ map Game.laps_completed (Sample.approaching float :: Sample.lap_run)
     = [0; 1; 1]%Z
  /\ Sorted counts_up
       (map Game.laps_completed (Sample.approaching float :: Sample.lap_run)).
Proof.
  assert (Hrun : Game.run (T := taylor_trig float) (R := flat_raster float)
                   (Sample.approaching float) Sample.onto_the_line
                 = Ok Sample.lap_run) by (vm_compute; reflexivity).
  refine (conj Hrun (conj eq_refl _)).
  exact (laps_completed_counts_up (T := taylor_trig float)
           (R := flat_raster float) Sample.onto_the_line
           (Sample.approaching float) Hrun).
Defined.

Lemma no_second_crossing_on_the_line :
  Game.update (T := taylor_trig float) (R := flat_raster float)
    (Sample.approaching float) (Game.tick hold_up (of_Z 105))
  = Ok (nth 0 Sample.lap_run (Sample.approaching float))
  /\ Game.update (T := taylor_trig float) (R := flat_raster float)
       (nth 0 Sample.lap_run (Sample.approaching float))
       (Game.tick hold_up (of_Z 106))
     = Ok (nth 1 Sample.lap_run (Sample.approaching float))
  /\ Game.timer (nth 0 Sample.lap_run (Sample.approaching float))
     <> Game.timer (Sample.approaching float)
  /\ Game.timer (nth 1 Sample.lap_run (Sample.approaching float))
     = Game.timer (nth 0 Sample.lap_run (Sample.approaching float)).
Proof.
  assert (Hup1 : Game.update (T := taylor_trig float) (R := flat_raster float)
                   (Sample.approaching float) (Game.tick hold_up (of_Z 105))
                 = Ok (nth 0 Sample.lap_run (Sample.approaching float)))
    by (vm_compute; reflexivity).
  assert (Hup2 : Game.update (T := taylor_trig float) (R := flat_raster float)
                   (nth 0 Sample.lap_run (Sample.approaching float))
                   (Game.tick hold_up (of_Z 106))
                 = Ok (nth 1 Sample.lap_run (Sample.approaching float)))
    by (vm_compute; reflexivity).
  assert (Hfired : Game.timer (nth 0 Sample.lap_run (Sample.approaching float))
                   <> Game.timer (Sample.approaching float))
    by (vm_compute; discriminate).
  refine (conj Hup1 (conj Hup2 (conj Hfired _))).
  exact (no_crossing_on_consecutive_ticks (T := taylor_trig float)
           (R := flat_raster float) _ _ Hup1 Hup2 Hfired).
Defined.

(** ** More of the track builder *)

Section Builder.
Context {F : Type} `{PyFloat F}.
Variable hypot : F -> F -> F.

(** X7.  [Track.__init__] never returns, whatever the centre line and
    the arithmetic: [_draw_track] reads [self.finish_line_color] (line
    163) before [__init__] has assigned it (lines 123-124), so the
    construction raises at the latest there; on an empty centre line it
    raises [IndexError] at [self.center_path[-1]].  [Game.__init__]
    builds the track first and raises with it. *)
Theorem track_init_never_returns (path : list (F * F)) :
  is_ok (Track.init_with hypot path) = false
  /\ (path = [] -> Track.init_with hypot path = Raise IndexError)
  /\ is_ok (Game.init hypot) = false.
Proof.
  assert (Hdraw : forall p, is_ok (Track._draw_track hypot (Track.fresh p))
                            = false).
  { intros p. unfold Track._draw_track.
    destruct (Track.offsets_loop _ _ _) as [[pl pr]|]; [|reflexivity].
    cbn [bind].
    destruct (Track.last _) as [c|]; [|reflexivity]. cbn [bind].
    destruct (Track.first _) as [n|]; [|reflexivity]. cbn [bind].
    destruct (Track.offsets _ _ _) as [[l r]|]; [|reflexivity]. cbn [bind].
    destruct (draw_polygon _ _ _) as [poly|]; [|reflexivity]. cbn [bind].
    destruct (Track.dashed_loop _ _ _) as [surf|]; reflexivity. }
  assert (Hinit : forall p, is_ok (Track.init_with hypot p) = false).
  { intros p. unfold Track.init_with. specialize (Hdraw p).
    destruct (Track._draw_track hypot (Track.fresh p));
      [discriminate | reflexivity]. }
  split; [apply Hinit|]. split.
  - intros ->. reflexivity.
  - unfold Game.init, Track.init. specialize (Hinit Track.default_path).
    destruct (Track.init_with hypot Track.default_path);
      [discriminate | reflexivity].
Qed.

Lemma dashes_ops (color : rgb) (x1 y1 ddx ddy sdx sdy : F) (width : Z)
  (count : nat) :
  forall (surf : Surface.t F) (i : Z),
  exists lines : list (draw_op F),
    Track.dashes surf color x1 y1 ddx ddy sdx sdy width i count
    = Surface.make (Surface.width surf) (Surface.height surf)
        (Surface.ops surf ++ lines)
    /\ List.length lines = count
    /\ Forall (fun op => exists p q, op = Line color p q width) lines.
Proof.
  induction count as [|count IH]; intros surf i.
  - exists []. cbn [Track.dashes]. rewrite app_nil_r.
    destruct surf. repeat split. constructor.
  - cbn [Track.dashes].
    match goal with
    | |- context [Track.dashes ?s _ _ _ _ _ _ _ _ ?j count] =>
        destruct (IH s j) as (lines & Heq & Hlen & Hall); rewrite Heq
    end.
    cbn [Surface.draw Surface.width Surface.height Surface.ops].
    eexists (_ :: lines). rewrite <- app_assoc. cbn [app].
    split; [reflexivity|]. split; [cbn; now rewrite Hlen|].
    constructor; [eexists; eexists; reflexivity | exact Hall].
Qed.

Hypothesis one_nonzero : feqb (of_Z 1) (of_Z 0) = false.
Hypothesis two_nonzero : feqb (of_Z 2) (of_Z 0) = false.
Hypothesis step_nonzero : feqb (of_Z 25) (of_Z 0) = false.

(** The dashed line on a drawable segment: [int(length / 25)] dashes. *)
Lemma dashed_line_draws (surf : Surface.t F) (x1 y1 x2 y2 : F) :
  drawable hypot ((x1, y1), (x2, y2)) ->
  exists (n : Z) (lines : list (draw_op F)),
    py_int (fdiv (hypot (fsub x2 x1) (fsub y2 y1)) (of_Z 25)) = Ok n
    /\ Track._draw_dashed_line hypot surf WHITE (x1, y1) (x2, y2) 15 10 3
       = Ok (Surface.make (Surface.width surf) (Surface.height surf)
               (Surface.ops surf ++ lines))
    /\ List.length lines = Z.to_nat n
    /\ Forall guide_dash lines.
Proof.
  intros [Hlen Hint]. unfold Track._draw_dashed_line, py_div.
  change (15 + 10)%Z with 25%Z. rewrite step_nonzero. cbn [bind].
  destruct (py_int _) as [n|] eqn:Hn; [|discriminate].
  cbn [bind]. rewrite Hlen. cbn [bind].
  match goal with
  | |- context [Track.dashes surf WHITE x1 y1 ?a ?b ?c ?d 3 0 (Z.to_nat n)] =>
      destruct (dashes_ops WHITE x1 y1 a b c d 3 (Z.to_nat n) surf 0)
        as (lines & Heq & Hcount & Hall)
  end.
  exists n, lines. rewrite Heq. repeat split; assumption.
Qed.




(** X8.  [_draw_dashed_line] on a segment, when the dash count
    [int(length / 25)] exists: it raises [ZeroDivisionError] if the
    length is zero, and otherwise draws exactly [int(length / 25)]
    white dashes of width 3 on top of what the surface held (none on a
    segment shorter than 25), leaving the size of the surface alone. *)
Theorem dashed_line_raises_or_draws
  (surf : Surface.t F) (x1 y1 x2 y2 : F) (n : Z) :
  py_int (fdiv (hypot (fsub x2 x1) (fsub y2 y1)) (of_Z 25)) = Ok n ->
  if feqb (hypot (fsub x2 x1) (fsub y2 y1)) (of_Z 0)
  then Track._draw_dashed_line hypot surf WHITE (x1, y1) (x2, y2) 15 10 3
       = Raise ZeroDivisionError
  else exists lines : list (draw_op F),
      Track._draw_dashed_line hypot surf WHITE (x1, y1) (x2, y2) 15 10 3
      = Ok (Surface.make (Surface.width surf) (Surface.height surf)
              (Surface.ops surf ++ lines))
      /\ List.length lines = Z.to_nat n
      /\ Forall guide_dash lines.
Proof.
  intros Hn.
  destruct (feqb (hypot (fsub x2 x1) (fsub y2 y1)) (of_Z 0)) eqn:Hlen.
  - now apply dashed_line_raises_on_zero_length with (count := n).
  - assert (Hseg : drawable hypot ((x1, y1), (x2, y2))).
    { split; [exact Hlen|]. now rewrite Hn. }
    destruct (dashed_line_draws surf Hseg)
      as (n' & lines & Hn' & Hline & Hcount & Hdash).
    exists lines. rewrite Hn in Hn'. injection Hn' as <-.
    repeat split; assumption.
Qed.

(** [pygame.draw.polygon] refuses the two-vertex polygon of a centre
    line of one point. *)
Lemma draw_track_raises_on_a_single_point (self : Track.t F) (p : F * F) :
  Track.center_path self = [p] ->
  Track._draw_track hypot self = Raise ValueError.
Proof.
  intros Hp. unfold Track._draw_track. rewrite Hp.
  cbn [Track.consecutive Track.offsets_loop bind Track.last Track.first rev
       app].
  destruct (offsets_never_raise hypot one_nonzero two_nonzero self (p, p))
    as [[l r] ->].
  reflexivity.
Qed.

End Builder.

(** The first segment of the source's centre line, about 167.6 long:
    six dashes. *)
Lemma dashes_of_the_first_segment :
  feqb (of_Z 25 : float) (of_Z 0) = false
  /\ py_int (fdiv (hypot64 (fsub (of_Z 560) (of_Z 400))
                           (fsub (of_Z 200) (of_Z 150))) (of_Z 25))
     = Ok 6%Z
  /\ exists lines : list (draw_op float),
      Track._draw_dashed_line hypot64 (Surface.new WIDTH HEIGHT) WHITE
        (of_Z 400, of_Z 150) (of_Z 560, of_Z 200) 15 10 3
      = Ok (Surface.make WIDTH HEIGHT ([Fill BLACK] ++ lines))
      /\ List.length lines = 6%nat
      /\ Forall guide_dash lines.
Proof.
  assert (Hstep : feqb (of_Z 25 : float) (of_Z 0) = false)
    by (vm_compute; reflexivity).
  assert (Hn : py_int (fdiv (hypot64 (fsub (of_Z 560) (of_Z 400))
                                     (fsub (of_Z 200) (of_Z 150)))
                            (of_Z 25)) = Ok 6%Z)
    by (vm_compute; reflexivity).
  refine (conj Hstep (conj Hn _)).
  exact (dashed_line_raises_or_draws hypot64 Hstep
           (Surface.new WIDTH HEIGHT)
           (of_Z 400) (of_Z 150) (of_Z 560) (of_Z 200) Hn).
Defined.


(** ** The boundary offsets in exact arithmetic *)

Section Offsets.
Variable hypot : Q -> Q -> Q.

Lemma offsets_exact (self : Track.t Q) (cx cy nx ny : Q) :
  let len := py_or (hypot (nx - cx) (ny - cy)) 1 in
  let half := inject_Z (Track.road_width self) / 2 in
  let plx := - ((ny - cy) / len) * half in
  let ply := (nx - cx) / len * half in
  Track.offsets hypot self ((cx, cy), (nx, ny))
  = Ok ((cx + plx, cy + ply), (cx - plx, cy - ply)).
Proof.
  cbv zeta. unfold Track.offsets, py_div.
  assert (Hlen : feqb (py_or (hypot (fsub nx cx) (fsub ny cy)) (of_Z 1))
                      (of_Z 0) = false)
    by (apply guarded_length_nonzero; reflexivity).
  rewrite Hlen. cbn [bind].
  change (feqb (of_Z 2 : Q) (of_Z 0)) with false. cbn [bind].
  reflexivity.
Qed.

(** X10.  The two boundary points [_draw_track] computes for a segment,
    in exact arithmetic and for any [hypot]: they are mirror images of
    each other in the centre point, they are offset at a right angle to
    the segment, and, when [hypot] is the length of the segment and is
    not zero, they lie at half the road width from the centre point. *)
Theorem offsets_straddle_the_centre (self : Track.t Q) (cx cy nx ny : Q) :
  exists lx ly rx ry : Q,
    Track.offsets hypot self ((cx, cy), (nx, ny)) = Ok ((lx, ly), (rx, ry))
    /\ lx + rx == 2 * cx
    /\ ly + ry == 2 * cy
    /\ (lx - cx) * (nx - cx) + (ly - cy) * (ny - cy) == 0
    /\ (hypot (nx - cx) (ny - cy) * hypot (nx - cx) (ny - cy)
        == (nx - cx) * (nx - cx) + (ny - cy) * (ny - cy) ->
        ~ hypot (nx - cx) (ny - cy) == 0 ->
        (lx - cx) * (lx - cx) + (ly - cy) * (ly - cy)
        == (inject_Z (Track.road_width self) / 2)
           * (inject_Z (Track.road_width self) / 2)).
Proof.
  do 4 eexists. split; [apply offsets_exact|].
  set (len := py_or (hypot (nx - cx) (ny - cy)) 1).
  set (half := inject_Z (Track.road_width self) / 2).
  split; [ring|]. split; [ring|]. split.
  - unfold Qdiv. ring.
  - intros Hsq Hnz.
    assert (Hlen : len = hypot (nx - cx) (ny - cy)).
    { unfold len, py_or, truthy. cbn [feqb exact of_Z].
      destruct (Qeq_bool (hypot (nx - cx) (ny - cy)) (inject_Z 0)) eqn:E;
        [|reflexivity].
      apply Qeq_bool_iff in E. contradiction. }
    rewrite Hlen.
    set (h := hypot (nx - cx) (ny - cy)) in *.
    transitivity (half * half * ((nx - cx) * (nx - cx) + (ny - cy) * (ny - cy))
                  / (h * h)).
    + field. exact Hnz.
    + rewrite <- Hsq. field. exact Hnz.
Qed.
End Offsets.

(** A 3-4-5 segment on a road 180 wide: the boundary points are 90 from
    the centre point. *)
Lemma offsets_of_a_3_4_5_segment :
  exists lx ly rx ry : Q,
    Track.offsets hypot_isqrt (Sample.track Q GRAY) ((0, 0), (3, 4))
    = Ok ((lx, ly), (rx, ry))
    /\ lx * lx + ly * ly == 90 * 90.
Proof.
  destruct (offsets_straddle_the_centre hypot_isqrt (Sample.track Q GRAY)
              0 0 3 4)
    as (lx & ly & rx & ry & Hoff & _ & _ & _ & Hdist).
  exists lx, ly, rx, ry. split; [exact Hoff|].
  assert (Hsq : hypot_isqrt (3 - 0) (4 - 0) * hypot_isqrt (3 - 0) (4 - 0)
                == (3 - 0) * (3 - 0) + (4 - 0) * (4 - 0)) by reflexivity.
  assert (Hnz : ~ hypot_isqrt (3 - 0) (4 - 0) == 0) by discriminate.
  specialize (Hdist Hsq Hnz).
  assert (Hl : lx - 0 == lx) by ring. assert (Hly : ly - 0 == ly) by ring.
  rewrite Hl, Hly in Hdist. rewrite Hdist. reflexivity.
Defined.

(** ** The wall clamp and the sampler *)

Lemma SFltb_SFleb (x y : spec_float) : SFltb x y = true -> SFleb x y = true.
Proof.
  unfold SFltb, SFleb. destruct (SFcompare x y) as [[]|]; congruence.
Qed.

(** Lines 100-101 on any float, nan included. *)
Lemma SF_wall_clamp (a w : spec_float) :
  SFltb (S754_zero false) w = true ->
  SFleb w w = true ->
  let m := if SFltb a w then a else w in
  let r := if SFltb (S754_zero false) m then m else S754_zero false in
  SFleb (S754_zero false) r = true /\ SFleb r w = true.
Proof.
  intros Hw Hww. cbv zeta.
  destruct (SFltb a w) eqn:Ea.
  - destruct (SFltb (S754_zero false) a) eqn:E0.
    + split; now apply SFltb_SFleb.
    + split; [reflexivity | now apply SFltb_SFleb].
  - rewrite Hw. split; [now apply SFltb_SFleb | exact Hww].
Qed.

Lemma wall_clamp64 (a : float) (W : Z) :
  SFltb (S754_zero false) (Prim2SF (of_Z W)) = true ->
  SFleb (Prim2SF (of_Z W)) (Prim2SF (of_Z W)) = true ->
  PrimFloat.leb (of_Z 0) (py_max (of_Z 0) (py_min (of_Z W) a)) = true
  /\ PrimFloat.leb (py_max (of_Z 0) (py_min (of_Z W) a)) (of_Z W) = true.
Proof.
  intros Hw Hww. unfold py_max, py_min. cbn [fltb binary64].
  rewrite !leb_spec, !Prim2SF_if, !ltb_spec, !Prim2SF_if.
  change (Prim2SF (of_Z 0)) with (S754_zero false).
  now apply SF_wall_clamp.
Qed.

(** X11.  After every tick on which [math.radians] returns, that is,
    on which the heading it is handed fits a double, the car is inside
    the play field, [0 <= x <= WIDTH] and [0 <= y <= HEIGHT].  On
    binary64 this holds whatever the position and the speed were and
    whatever [math.sin] and [math.cos] return: a nan coordinate is put
    at the far wall by [min(WIDTH, x)]. *)
Theorem position_stays_in_field :
  (forall (T : Trig float) (c : Car.t float) (k : Keys),
      fits_double (steered_heading c k) = true ->
      in_field64 (Car.x (Car.update c k)) (Car.y (Car.update c k)))
  /\ (forall (T : Trig Q) (c : Car.t Q) (k : Keys),
         fits_double (steered_heading c k) = true ->
         in_field (Car.x (Car.update c k)) (Car.y (Car.update c k))).
Proof.
  split.
  - intros T c k _. unfold Car.update, Car.move, in_field64.
    cbn [Car.x Car.y Car.set_xy].
    split; [|split; [|split]];
      apply wall_clamp64; vm_compute; reflexivity.
  - intros T c k _. apply update_in_field.
Qed.

(** Backing away from the start with steer-left held: the heading is
    -4 degrees, and the car stays in the field. *)
Lemma position_in_field_in_reverse :
  fits_double (steered_heading (Game.car (Sample.reversing float))
                 hold_down_left) = true
  /\ in_field64
       (Car.x (Car.update (T := taylor_trig float)
                 (Game.car (Sample.reversing float)) hold_down_left))
       (Car.y (Car.update (T := taylor_trig float)
                 (Game.car (Sample.reversing float)) hold_down_left)).
Proof.
  assert (Hfits : fits_double
                    (steered_heading (Game.car (Sample.reversing float))
                       hold_down_left) = true)
    by (vm_compute; reflexivity).
  refine (conj Hfits _).
  exact (proj1 position_stays_in_field (taylor_trig float)
           (Game.car (Sample.reversing float)) hold_down_left Hfits).
Defined.

(** [int()] of a valid float between zero and a wall [mw * 2^-43]. *)
Lemma SFtrunc_between (x : spec_float) (mw : positive) :
  valid_binary x = true ->
  (2 ^ 52 <= Zpos mw)%Z ->
  SFleb (S754_zero false) x = true ->
  SFleb x (S754_finite false mw (-43)) = true ->
  exists z : Z, SFtrunc x = Ok z /\ (0 <= z <= Zpos mw / 2 ^ 43)%Z.
Proof.
  intros Hvalid Hmw H0 HW.
  assert (Hwall : (2 ^ 9 <= Zpos mw / 2 ^ 43)%Z)
    by (apply Z.div_le_lower_bound; lia).
  destruct x as [s | [] | | s m e]; try discriminate.
  - exists 0%Z. split; [reflexivity | lia].
  - destruct s; [discriminate|].
    cbn [valid_binary] in Hvalid.
    unfold bounded, canonical_mantissa in Hvalid.
    apply andb_true_iff in Hvalid as [Hcan _].
    apply Z.eqb_eq in Hcan. rewrite fexp64_eq in Hcan.
    pose proof (digits2_pos_bounds m) as [_ Hmhi].
    assert (Hm : (Zpos m < 2 ^ 53)%Z).
    { eapply Z.lt_le_trans; [exact Hmhi|].
      apply Z.pow_le_mono_r; lia. }
    unfold SFleb, SFcompare in HW.
    destruct (Z.compare_spec e (-43)) as [He | He | He]; [| |discriminate].
    + subst e. exists (Z.shiftr (Zpos m) 43). split; [reflexivity|].
      rewrite Z.shiftr_div_pow2 by lia. split.
      * apply Z.div_pos; lia.
      * apply Z.div_le_mono; [lia|].
        rewrite Pos.compare_cont_spec in HW.
        assert (Hle : (m <= mw)%positive).
        { unfold Pos.le. destruct (m ?= mw)%positive; cbn in HW; congruence. }
        lia.
    + destruct e as [|p|p]; try lia.
      exists (Z.shiftr (Zpos m) (Zpos p)). split; [reflexivity|].
      rewrite Z.shiftr_div_pow2 by lia. split.
      * apply Z.div_pos; lia.
      * apply Z.lt_le_incl. eapply Z.lt_le_trans; [|exact Hwall].
        apply Z.div_lt_upper_bound; [lia|].
        assert (Hp : (2 ^ 44 <= 2 ^ Zpos p)%Z)
          by (apply Z.pow_le_mono_r; lia).
        lia.
Qed.

(** A position in the field has integer parts, and they are in the
    field. *)
Lemma py_int_in_field64 (x y : float) :
  in_field64 x y ->
  exists ix iy : Z,
    py_int x = Ok ix /\ py_int y = Ok iy
    /\ (0 <= ix <= WIDTH)%Z /\ (0 <= iy <= HEIGHT)%Z.
Proof.
  unfold in_field64. rewrite !leb_spec.
  change (Prim2SF (of_Z 0)) with (S754_zero false).
  replace (Prim2SF (of_Z WIDTH)) with (S754_finite false 7036874417766400 (-43))
    by (vm_compute; reflexivity).
  replace (Prim2SF (of_Z HEIGHT)) with (S754_finite false 5277655813324800 (-43))
    by (vm_compute; reflexivity).
  intros (Hx0 & HxW & Hy0 & HyH).
  destruct (@SFtrunc_between (Prim2SF x) 7036874417766400
              (Prim2SF_valid x) ltac:(lia) Hx0 HxW) as (ix & Hix & Hxb).
  destruct (@SFtrunc_between (Prim2SF y) 5277655813324800
              (Prim2SF_valid y) ltac:(lia) Hy0 HyH) as (iy & Hiy & Hyb).
  exists ix, iy. repeat split; try assumption; try lia.
  - change (7036874417766400 / 2 ^ 43)%Z with 800%Z in Hxb. unfold WIDTH. lia.
  - change (5277655813324800 / 2 ^ 43)%Z with 600%Z in Hyb. unfold HEIGHT. lia.
Qed.

(** X12.  On binary64, [is_on_track] never raises on the position
    [Game.update] hands it, the position [Car.update] has just clamped;
    and a car pressed against the right wall ([x = WIDTH]) or the bottom
    wall ([y = HEIGHT]) samples as off-track, there being no pixel
    column [WIDTH] and no pixel row [HEIGHT]. *)
Theorem sampler_returns_on_the_car
  (T : Trig float) (R : Raster float) (tr : Track.t float)
  (c : Car.t float) (k : Keys) :
  Surface.width (Track.surface tr) = WIDTH ->
  Surface.height (Track.surface tr) = HEIGHT ->
  (exists on : bool,
      Track.is_on_track tr (Car.x (Car.update c k)) (Car.y (Car.update c k))
      = Ok on)
  /\ (Car.x (Car.update c k) = of_Z WIDTH
      \/ Car.y (Car.update c k) = of_Z HEIGHT ->
      Track.is_on_track tr (Car.x (Car.update c k)) (Car.y (Car.update c k))
      = Ok false).
Proof.
  intros Hw Hh.
  set (x := Car.x (Car.update c k)). set (y := Car.y (Car.update c k)).
  assert (Hfield : in_field64 x y).
  { unfold x, y, Car.update, Car.move, in_field64.
    cbn [Car.x Car.y Car.set_xy].
    split; [|split; [|split]];
      apply wall_clamp64; vm_compute; reflexivity. }
  destruct (py_int_in_field64 Hfield) as (ix & iy & Hix & Hiy & Hxb & Hyb).
  assert (Hcx : c_int ix = true)
    by (eapply c_int_in_field; [eassumption | discriminate]).
  assert (Hcy : c_int iy = true)
    by (eapply c_int_in_field; [eassumption | discriminate]).
  rewrite (is_on_track_at tr x y Hix Hiy).
  split.
  - rewrite get_at_in_c_int by assumption.
    destruct (_ && _); eexists; reflexivity.
  - intros Hwall. rewrite get_at_outside; [reflexivity | assumption ..|].
    rewrite Hw, Hh.
    destruct Hwall as [Hx | Hy].
    + rewrite Hx in Hix. vm_compute in Hix. injection Hix as <-.
      unfold WIDTH. lia.
    + rewrite Hy in Hiy. vm_compute in Hiy. injection Hiy as <-.
      unfold HEIGHT. lia.
Qed.

(** ** At rest, and under the brake *)

Section Idle.
Context {F : Type} `{PyFloat F} {T : Trig F}.

Lemma steering_speed_idle (c : Car.t F) (k : Keys) :
  Car.tuned c -> idle k -> steering_speed c k = coast_step (Car.speed c).
Proof.
  intros (Hmax & _ & _ & Hfr & _) [Hacc Hbr].
  unfold steering_speed, Car.clamp_speed, Car.throttle, coast_step.
  change (K_UP k || K_w k) with (accelerate k).
  change (K_DOWN k || K_s k) with (brake k).
  rewrite Hacc, Hbr.
  branches; cbn [Car.speed Car.set_speed Car.max_speed];
    now rewrite ?Hmax, ?Hfr.
Qed.

Lemma steering_speed_braking (c : Car.t F) (k : Keys) :
  Car.tuned c -> braking k -> steering_speed c k = brake_step (Car.speed c).
Proof.
  intros (Hmax & _ & Hdec & _) [Hacc Hbr].
  unfold steering_speed, Car.clamp_speed, Car.throttle, brake_step.
  change (K_UP k || K_w k) with (accelerate k).
  change (K_DOWN k || K_s k) with (brake k).
  rewrite Hacc, Hbr.
  cbn [Car.speed Car.set_speed Car.max_speed].
  now rewrite Hmax, Hdec.
Qed.

Lemma speed_drive_braking (ks : list Keys) (c : Car.t F) :
  Car.tuned c ->
  Forall braking ks ->
  Car.speed (drive c ks)
  = Nat.iter (List.length ks) brake_step (Car.speed c).
Proof.
  revert c. induction ks as [|k ks IH]; intros c Htuned Hks; [reflexivity|].
  inversion Hks as [|? ? Hk Hks']; subst.
  change (drive c (k :: ks)) with (drive (Car.update c k) ks).
  rewrite IH by (try apply tuned_update; assumption).
  rewrite speed_update, steering_speed_braking by assumption.
  cbn [List.length]. now rewrite Nat.iter_succ_r.
Qed.

(** A tick with a speed that compares equal to zero keeps the heading. *)
Lemma tick_car_still (c : Car.t F) (i : Keys * bool) :
  feqb (steering_speed c (fst i)) (of_Z 0) = true ->
  Car.angle (tick_car c i) = Car.angle c.
Proof.
  intros Hstill. unfold tick_car, Game.penalty.
  destruct (negb (snd i)); cbn [Car.angle Car.set_speed];
    rewrite angle_step, Hstill; lia.
Qed.

Lemma speed_tick_car (c : Car.t F) (i : Keys * bool) :
  Car.speed (tick_car c i)
  = if snd i then steering_speed c (fst i)
    else fmul (steering_speed c (fst i)) (lit 0.95).
Proof.
  unfold tick_car, Game.penalty.
  destruct (snd i); cbn [negb Car.speed Car.set_speed];
    now rewrite speed_update.
Qed.
End Idle.

(** The two zeros of binary64. *)
Lemma zero64 (s : float) :
  feqb s (of_Z 0) = true -> s = of_Z 0 \/ s = fneg (of_Z 0).
Proof.
  cbn [feqb binary64]. rewrite eqb_spec.
  change (Prim2SF (of_Z 0)) with (S754_zero false).
  intros Heq. rewrite <- (SF2Prim_Prim2SF s).
  destruct (Prim2SF s) as [[] | [] | | [] m e]; try discriminate.
  - right. vm_compute. reflexivity.
  - left. vm_compute. reflexivity.
Qed.

Lemma tick_car_parked64 (T : Trig float) (a : Z) (c : Car.t float)
  (i : Keys * bool) :
  Car.tuned c -> idle (fst i) -> parked a c -> parked a (tick_car c i).
Proof.
  intros Htuned Hidle [Hzero Hangle].
  assert (Hcoast : steering_speed c (fst i) = Car.speed c).
  { rewrite steering_speed_idle by assumption.
    destruct (zero64 Hzero) as [-> | ->]; vm_compute; reflexivity. }
  split.
  - rewrite speed_tick_car, Hcoast.
    destruct (snd i); [exact Hzero|].
    destruct (zero64 Hzero) as [-> | ->]; vm_compute; reflexivity.
  - rewrite tick_car_still; [exact Hangle | now rewrite Hcoast].
Qed.

Lemma coast_step_zero_exact (s : Q) : s == 0 -> coast_step s = s.
Proof.
  intros Hs. unfold coast_step, py_max, py_min. cbn [fltb fdiv fneg of_Z exact].
  change (inject_Z 0) with 0.
  replace (Qltb 0 s) with false by (symmetry; apply Qltb_false; lra).
  replace (Qltb s 0) with false by (symmetry; apply Qltb_false; lra).
  replace (Qltb (inject_Z 7) s) with false
    by (symmetry; apply Qltb_false; change (inject_Z 7) with 7; lra).
  replace (Qltb s (- inject_Z 7 / inject_Z 2)) with false; [reflexivity|].
  symmetry. apply Qltb_false.
  assert (Hlow : - inject_Z 7 / inject_Z 2 == - (7 # 2)) by reflexivity.
  rewrite Hlow. lra.
Qed.

Lemma tick_car_parked_exact (T : Trig Q) (a : Z) (c : Car.t Q)
  (i : Keys * bool) :
  Car.tuned c -> idle (fst i) -> parked a c -> parked a (tick_car c i).
Proof.
  intros Htuned Hidle [Hzero Hangle].
  apply Qeq_bool_iff in Hzero. change (of_Z 0) with 0 in Hzero.
  assert (Hcoast : steering_speed c (fst i) = Car.speed c).
  { rewrite steering_speed_idle by assumption.
    now apply coast_step_zero_exact. }
  split.
  - rewrite speed_tick_car, Hcoast. apply Qeq_bool_iff.
    change (of_Z 0) with 0.
    destruct (snd i); [exact Hzero|].
    cbn [fmul exact]. rewrite Hzero. ring.
  - rewrite tick_car_still; [exact Hangle|].
    rewrite Hcoast. now apply Qeq_bool_iff.
Qed.

(** X13.  A car at rest stays at rest: with neither accelerate nor
    brake held, whatever the steering keys and whether or not it is on
    the track, the speed stays zero and the heading stays what it was,
    tick after tick, on binary64 and in exact arithmetic.  Friction
    does not set a standing car in motion. *)
Theorem rest_is_stable :
  (forall (T : Trig float) (history : list (Keys * bool)) (c : Car.t float),
      Car.tuned c ->
      feqb (Car.speed c) (of_Z 0) = true ->
      Forall (fun i => idle (fst i)) history ->
      Forall (parked (Car.angle c)) (ride c history))
  /\ (forall (T : Trig Q) (history : list (Keys * bool)) (c : Car.t Q),
         Car.tuned c ->
         feqb (Car.speed c) (of_Z 0) = true ->
         Forall (fun i => idle (fst i)) history ->
         Forall (parked (Car.angle c)) (ride c history)).
Proof.
  split.
  - intros T history c Htuned Hzero.
    assert (Hparked : parked (Car.angle c) c) by (now split).
    generalize dependent (Car.angle c). clear Hzero. revert c Htuned.
    induction history as [|i history IH]; intros c Htuned a Hparked Hidle;
      cbn [ride]; [constructor|].
    inversion Hidle as [|? ? Hi Hrest]; subst.
    pose proof (tick_car_parked64 T i Htuned Hi Hparked) as Hnext.
    constructor; [exact Hnext|].
    apply IH; try assumption.
    unfold tick_car. now apply tuned_penalty, tuned_update.
  - intros T history c Htuned Hzero.
    assert (Hparked : parked (Car.angle c) c) by (now split).
    generalize dependent (Car.angle c). clear Hzero. revert c Htuned.
    induction history as [|i history IH]; intros c Htuned a Hparked Hidle;
      cbn [ride]; [constructor|].
    inversion Hidle as [|? ? Hi Hrest]; subst.
    pose proof (tick_car_parked_exact T i Htuned Hi Hparked) as Hnext.
    constructor; [exact Hnext|].
    apply IH; try assumption.
    unfold tick_car. now apply tuned_penalty, tuned_update.
Qed.

Lemma brake_step_exact (s : Q) (n : nat) :
  s == Qmax (- (0.3 * inject_Z (Z.of_nat n))) (- (7 # 2)) ->
  brake_step s == Qmax (- (0.3 * inject_Z (Z.of_nat (S n)))) (- (7 # 2)).
Proof.
  intros Hs. unfold brake_step. rewrite clamp_exact.
  cbn [fsub exact]. rewrite lit_exact.
  rewrite Nat2Z.inj_succ. unfold Z.succ. rewrite inject_Z_plus.
  assert (Hn : 0 <= inject_Z (Z.of_nat n)).
  { change 0 with (inject_Z 0). rewrite <- Zle_Qle. lia. }
  set (m := inject_Z (Z.of_nat n)) in *. clearbody m.
  change (inject_Z 1) with 1.
  destruct (Q.max_spec (- (0.3 * m)) (- (7 # 2))) as [[Hlt Hmax] | [Hle Hmax]];
    rewrite Hmax in Hs;
    destruct (Q.max_spec (- (0.3 * (m + 1))) (- (7 # 2)))
      as [[Hlt' Hmax'] | [Hle' Hmax']];
    rewrite Hmax';
    (rewrite (Q.min_l (s - 0.3) 7) by lra);
    destruct (Q.max_spec (s - 0.3) (- (7 # 2))) as [[Hlt2 Hmax2] | [Hle2 Hmax2]];
    rewrite Hmax2; lra.
Qed.

Lemma iter_brake_exact (n : nat) (s : Q) :
  s == 0 ->
  Nat.iter n brake_step s
  == Qmax (- (0.3 * inject_Z (Z.of_nat n))) (- (7 # 2)).
Proof.
  intros Hs. induction n as [|n IH].
  - change (Nat.iter 0 brake_step s) with s. rewrite Hs. reflexivity.
  - rewrite Nat.iter_succ. now apply brake_step_exact.
Qed.

Lemma iter_brake_bottom (n : nat) :
  (12 <= n)%nat ->
  Nat.iter n (brake_step (F := float)) (of_Z 0)
  = fdiv (fneg (of_Z 7)) (of_Z 2).
Proof.
  intros Hn. replace n with ((n - 12) + 12)%nat by lia.
  rewrite Nat.iter_add.
  replace (Nat.iter 12 brake_step (of_Z 0 : float))
    with (fdiv (fneg (of_Z 7)) (of_Z 2) : float)
    by (vm_compute; reflexivity).
  induction (n - 12)%nat as [|m IH]; [reflexivity|].
  rewrite Nat.iter_succ, IH. vm_compute. reflexivity.
Qed.

(** X14.  Reverse gear: from rest, with brake held (and accelerate not)
    on every tick and no off-track penalty, the speed after N ticks is
    [max(-0.3 * N, -3.5)] in exact arithmetic; on binary64 it is exactly
    [-max_speed / 2 = -3.5] from tick 12 on.  Reverse tops out at half
    the forward speed. *)
Theorem brake_ramp_bottoms_out :
  (forall (T : Trig Q) (c : Car.t Q) (ks : list Keys),
      Car.tuned c ->
      Car.speed c == 0 ->
      Forall braking ks ->
      Car.speed (drive c ks)
      == Qmax (- (0.3 * inject_Z (Z.of_nat (List.length ks)))) (- (7 # 2)))
  /\ (forall (T : Trig float) (c : Car.t float) (ks : list Keys),
         Car.tuned c ->
         Car.speed c = of_Z 0 ->
         Forall braking ks ->
         (12 <= List.length ks)%nat ->
         Car.speed (drive c ks) = fdiv (fneg (of_Z 7)) (of_Z 2)).
Proof.
  split.
  - intros T c ks Htuned Hs Hks.
    rewrite speed_drive_braking by assumption.
    now apply iter_brake_exact.
  - intros T c ks Htuned Hs Hks Hlen.
    rewrite speed_drive_braking, Hs by assumption.
    now apply iter_brake_bottom.
Qed.

Section Frame.
Context {F : Type} `{PyFloat F} {T : Trig F} {R : Raster F}.

(** X15.  [Game.update] leaves the track alone and never sets
    [game_over]: every state of a run has the track and the
    [game_over] flag of the state it started from, and a car with the
    tuning constants of [Car.__init__] keeps them. *)
Theorem run_keeps_the_track (inputs : list (Game.input F)) :
  forall (g : Game.t F) (states : list (Game.t F)),
    Game.run g inputs = Ok states ->
    Car.tuned (Game.car g) ->
    Forall (fun g' => Game.track g' = Game.track g
                      /\ Game.game_over g' = Game.game_over g
                      /\ Car.tuned (Game.car g')) states.
Proof.
  induction inputs as [|i inputs IH]; intros g states Hrun Htuned;
    cbn [Game.run] in Hrun.
  - injection Hrun as <-. constructor.
  - destruct (Game.update g i) as [g'|] eqn:Hup; [|discriminate].
    cbn [bind] in Hrun.
    destruct (Game.run g' inputs) as [rest|] eqn:Hrest; [|discriminate].
    injection Hrun as <-.
    destruct (update_detail g i Hup)
      as (_ & _ & _ & _ & Htrack & Hover & _).
    destruct (update_car g i Hup) as (on & _ & Hcar).
    assert (Htuned' : Car.tuned (Game.car g')).
    { rewrite Hcar. unfold tick_car. now apply tuned_penalty, tuned_update. }
    constructor; [exact (conj Htrack (conj Hover Htuned'))|].
    specialize (IH g' rest Hrest Htuned').
    rewrite Htrack, Hover in IH. exact IH.
Qed.
End Frame.

(** The sampler on the car of [Sample], one tick of throttle on. *)
Lemma sampler_on_the_sample_car :
  Surface.width (Track.surface (Sample.track float GRAY)) = WIDTH
  /\ Surface.height (Track.surface (Sample.track float GRAY)) = HEIGHT
  /\ exists on : bool,
      Track.is_on_track (R := flat_raster float) (Sample.track float GRAY)
        (Car.x (Car.update (T := taylor_trig float)
                  (Sample.at_rest float) hold_up))
        (Car.y (Car.update (T := taylor_trig float)
                  (Sample.at_rest float) hold_up))
      = Ok on.
Proof.
  refine (conj eq_refl (conj eq_refl _)).
  exact (proj1 (sampler_returns_on_the_car (taylor_trig float)
                  (flat_raster float) (Sample.track float GRAY)
                  (Sample.at_rest float) hold_up eq_refl eq_refl)).
Defined.

(** Wiggling the steering at rest, on and off the track. *)
Lemma rest_is_stable_at_the_start :
  Car.tuned (Sample.at_rest float)
  /\ feqb (Car.speed (Sample.at_rest float)) (of_Z 0) = true
  /\ Forall (fun i => idle (fst i))
       [(hold_left, true); (no_keys, false); (hold_left, false)]
  /\ Forall (parked 0)
       (ride (T := taylor_trig float) (Sample.at_rest float)
          [(hold_left, true); (no_keys, false); (hold_left, false)]).
Proof.
  assert (Htuned : Car.tuned (Sample.at_rest float)) by (repeat split).
  assert (Hzero : feqb (Car.speed (Sample.at_rest float)) (of_Z 0) = true)
    by (vm_compute; reflexivity).
  assert (Hidle : Forall (fun i : Keys * bool => idle (fst i))
                    [(hold_left, true); (no_keys, false); (hold_left, false)])
    by (repeat constructor).
  refine (conj Htuned (conj Hzero (conj Hidle _))).
  exact (proj1 rest_is_stable (taylor_trig float) _ (Sample.at_rest float)
           Htuned Hzero Hidle).
Defined.

(** Fifteen ticks of brake from rest. *)
Lemma brake_ramp_fifteen_ticks :
  Car.tuned (Sample.at_rest float)
  /\ Forall braking (repeat hold_down 15)
  /\ Car.speed (drive (T := taylor_trig float) (Sample.at_rest float)
                  (repeat hold_down 15))
     = fdiv (fneg (of_Z 7)) (of_Z 2).
Proof.
  assert (Htuned : Car.tuned (Sample.at_rest float)) by (repeat split).
  assert (Hks : Forall braking (repeat hold_down 15)).
  { apply Forall_forall. intros k Hk. apply repeat_spec in Hk.
    subst k. split; reflexivity. }
  refine (conj Htuned (conj Hks _)).
  apply (proj2 brake_ramp_bottoms_out (taylor_trig float)
           (Sample.at_rest float) (repeat hold_down 15) Htuned eq_refl Hks).
  vm_compute. lia.
Defined.

(** The run onto the finish line keeps its track. *)
Lemma run_onto_the_line_keeps_the_track :
  Game.run (T := taylor_trig float) (R := flat_raster float)
    (Sample.approaching float) Sample.onto_the_line = Ok Sample.lap_run
  /\ Car.tuned (Game.car (Sample.approaching float))
  /\ Forall (fun g' => Game.track g' = Sample.track float GRAY
                       /\ Game.game_over g' = false
                       /\ Car.tuned (Game.car g')) Sample.lap_run.
Proof.
  assert (Hrun : Game.run (T := taylor_trig float) (R := flat_raster float)
                   (Sample.approaching float) Sample.onto_the_line
                 = Ok Sample.lap_run) by (vm_compute; reflexivity).
  assert (Htuned : Car.tuned (Game.car (Sample.approaching float)))
    by (repeat split).
  refine (conj Hrun (conj Htuned _)).
  exact (run_keeps_the_track (T := taylor_trig float)
           (R := flat_raster float) Sample.onto_the_line
           (Sample.approaching float) Hrun Htuned).
Defined.

(** ** The best lap on binary64 *)

Lemma SFcompare_refl (x : spec_float) :
  x <> S754_nan -> SFleb x x = true.
Proof.
  intros Hx. unfold SFleb.
  destruct x as [s | s | | s m e]; cbn [SFcompare]; try congruence.
  - destruct s; reflexivity.
  - change (Pos.compare_cont Eq m m) with (m ?= m)%positive.
    rewrite Z.compare_refl, Pos.compare_refl. destruct s; reflexivity.
Qed.

Lemma SFfinite_not_nan (x : spec_float) : SFfinite x -> x <> S754_nan.
Proof. destruct x; cbn; congruence || contradiction. Qed.

(** [min(a, lap)] of numbers is a number, at most [lap]. *)
Lemma py_min_le64 (a lap : float) :
  Prim2SF a <> S754_nan ->
  Prim2SF lap <> S754_nan ->
  Prim2SF (py_min a lap) <> S754_nan
  /\ PrimFloat.leb (py_min a lap) lap = true.
Proof.
  intros Ha Hlap. unfold py_min. cbn [fltb binary64].
  rewrite leb_spec, Prim2SF_if, ltb_spec.
  destruct (SFltb (Prim2SF lap) (Prim2SF a)) eqn:E.
  - split; [exact Hlap | now apply SFcompare_refl].
  - split; [exact Ha | now apply SFltb_false_SFleb].
Qed.

Lemma crossing_keeps_inv64 (l : Game.laps float) (now : float) :
  lap_inv64 l -> finite64 now -> lap_inv64 (Game.crossing l now).
Proof.
  intros [(start & Hstart & Hfin) Hbest] Hnow.
  unfold Game.crossing. rewrite Hstart. unfold lap_inv64.
  cbn [Game.l_start_time Game.l_best_lap_time Game.l_lap_time].
  split; [exists now; now split|].
  assert (Hlap : Prim2SF (fsub now start) <> S754_nan).
  { cbn [fsub binary64]. rewrite sub_spec. now apply SFsub_not_nan. }
  apply py_min_le64; [|exact Hlap].
  unfold Game.best_or, py_or.
  destruct (Game.l_best_lap_time l) as [b|]; [|exact Hlap].
  destruct (truthy b); [exact (proj1 Hbest) | exact Hlap].
Qed.

Lemma crossings_keep_inv64 (ts : list float) :
  forall l : Game.laps float,
    lap_inv64 l -> Forall finite64 ts -> lap_inv64 (crossings ts l).
Proof.
  induction ts as [|t ts IH]; intros l Hinv Hts; [exact Hinv|].
  inversion Hts as [|? ? Ht Hrest]; subst.
  cbn [crossings fold_left]. apply IH; [|exact Hrest].
  now apply crossing_keeps_inv64.
Qed.

(** X16.  On binary64, for crossing events at any clock readings that
    are numbers (in any order, the clock may step back): once a lap is
    recorded the best lap time is recorded too and is at most the last
    lap time. *)
Theorem best_lap_at_most_last_lap64 (t0 : float) (ts : list float) :
  finite64 t0 ->
  Forall finite64 ts ->
  ts <> [] ->
  exists best : float,
    Game.l_best_lap_time (crossings (t0 :: ts) not_started) = Some best
    /\ PrimFloat.leb best
         (Game.l_lap_time (crossings (t0 :: ts) not_started)) = true.
Proof.
  intros Ht0 Hts Hne.
  destruct ts as [|t1 ts]; [contradiction|].
  inversion Hts as [|? ? Ht1 Hrest]; subst.
  change (crossings (t0 :: t1 :: ts) not_started)
    with (crossings ts (Game.crossing (Game.crossing not_started t0) t1)).
  set (l1 := Game.crossing (Game.crossing not_started t0) t1).
  assert (Hinv0 : lap_inv64 (Game.crossing not_started t0)).
  { split; [exists t0; now split | exact I]. }
  assert (Hinv1 : lap_inv64 l1) by (now apply crossing_keeps_inv64).
  assert (Hsome : forall (us : list float) (l : Game.laps float),
             Game.l_best_lap_time l <> None ->
             Game.l_start_time l <> None ->
             Game.l_best_lap_time (crossings us l) <> None).
  { induction us as [|u us IHus]; intros l Hb Hs; [exact Hb|].
    cbn [crossings fold_left]. apply IHus;
      unfold Game.crossing; destruct (Game.l_start_time l);
      cbn; congruence. }
  pose proof (crossings_keep_inv64 Hinv1 Hrest) as [_ Hbest].
  destruct (Game.l_best_lap_time (crossings ts l1)) as [best|] eqn:E.
  - exists best. split; [reflexivity | exact (proj2 Hbest)].
  - exfalso. apply (Hsome ts l1); [discriminate | discriminate | exact E].
Qed.

(** Clock readings 10, 12, 11, 15: the clock steps back once. *)
Lemma best_lap_with_a_clock_step :
  finite64 (of_Z 10)
  /\ Forall finite64 [of_Z 12; of_Z 11; of_Z 15]
  /\ exists best : float,
      Game.l_best_lap_time
        (crossings [of_Z 10; of_Z 12; of_Z 11; of_Z 15] not_started)
      = Some best
      /\ PrimFloat.leb best
           (Game.l_lap_time
              (crossings [of_Z 10; of_Z 12; of_Z 11; of_Z 15] not_started))
         = true.
Proof.
  assert (H0 : finite64 (of_Z 10)) by exact I.
  assert (Hts : Forall finite64 [of_Z 12; of_Z 11; of_Z 15])
    by (repeat constructor).
  refine (conj H0 (conj Hts _)).
  exact (@best_lap_at_most_last_lap64 (of_Z 10)
           [of_Z 12; of_Z 11; of_Z 15] H0 Hts ltac:(discriminate)).
Defined.

(** ** The closing segment *)

(** X18.  A segment from a point to itself gets no offset, in exact
    arithmetic and whatever [hypot] returns: both boundary points are
    the point itself.  [__init__] closes the centre line by repeating
    its first point and [_draw_track] adds a segment from the last point
    to the first, so the road polygon is pinched to the centre line at
    the start point. *)
Theorem closing_segment_has_no_offset
  (hypot : Q -> Q -> Q) (self : Track.t Q) (cx cy : Q) :
  exists lx ly rx ry : Q,
    Track.offsets hypot self ((cx, cy), (cx, cy)) = Ok ((lx, ly), (rx, ry))
    /\ lx == cx /\ ly == cy /\ rx == cx /\ ry == cy.
Proof.
  do 4 eexists. split; [apply offsets_exact|].
  unfold Qdiv. repeat split; ring.
Qed.
